(** * MPF codec (libs/mpf/include/mpf_codec.h)

    A shallow embedding of the inline functions of [mpf_codec.h] and the
    properties of the codec abstraction that follow from them.

    The header manipulates three kinds of objects through pointers: codec
    objects ([mpf_codec_t]), codec frames ([mpf_codec_frame_t]) and raw byte
    buffers.  The embedding keeps one store per kind, addressed by integer
    pointers, and threads the three stores through every function in a
    state-and-failure monad.  A computation that yields [None] stands for a
    C execution with undefined behaviour (a dangling pointer, a [memcpy]
    outside allocated bytes or between overlapping regions, a [memset]
    through an invalid pointer). *)

From Stdlib Require Import ZArith Lia.
From Stdlib.Strings Require Import Byte.
From stdpp Require Import gmap list.

Local Open Scope Z_scope.

(** ** Base types *)

(** Pointers are integer addresses; [NULL] is address zero.  Pointer
    arithmetic is plain integer addition: C gives no meaning to a pointer
    that leaves its object, so there is no wrap-around to model. *)
Abbreviation ptr := Z (only parsing).
Definition NULL : ptr := 0.

(** Modelled from the spec: [apt_bool_t], [TRUE] and [FALSE] come from the
    toolkit headers, which are not part of this file; the specification
    describes the result of every operation as a single boolean
    success/failure signal. *)
Abbreviation apt_bool_t := bool (only parsing).
Definition TRUE : apt_bool_t := true.
Definition FALSE : apt_bool_t := false.

(** ** Structures *)

(** Modelled from the spec: [mpf_codec_frame_t] is declared in
    [mpf_codec_descriptor.h]; the header under study reads exactly two
    members of it, [frame->buffer] (a [void*]) and [frame->size] (an
    [apr_size_t]): a buffer reference plus a declared byte size. *)
Module Frame.
Record t : Type := Build { buffer : ptr; size : Z }.
End Frame.
Abbreviation mpf_codec_frame_t := Frame.t.

(** [struct mpf_codec_t]: every member is a pointer, kept as an address so
    that sharing between codecs is visible as equality of addresses. *)
Module Codec.
Record t : Type := Build {
  vtable            : ptr;
  attribs           : ptr;
  static_descriptor : ptr;
  encoder_obj       : ptr;
  decoder_obj       : ptr;
  pool              : ptr
}.
End Codec.
Abbreviation mpf_codec_t := Codec.t.

(** ** Program state *)

(** The three stores.  [bytes] holds the allocated cells of raw buffers,
    [codecs] the live codec objects, [frames] the live frame objects. *)
Record world : Type := World {
  bytes  : gmap Z byte;
  codecs : gmap Z mpf_codec_t;
  frames : gmap Z mpf_codec_frame_t
}.

Definition set_bytes (m : gmap Z byte) (w : world) : world :=
  World m (codecs w) (frames w).
Definition set_codecs (m : gmap Z mpf_codec_t) (w : world) : world :=
  World (bytes w) m (frames w).

(** The monad of C computations: state passing, [None] for undefined
    behaviour. *)
Definition M (A : Type) : Type := world -> option (A * world).

Definition ret {A} (a : A) : M A := fun w => Some (a, w).
Definition bind {A B} (c : M A) (k : A -> M B) : M B :=
  fun w => match c w with
           | Some (a, w') => k a w'
           | None => None
           end.

Notation "x <- c ;; k" := (bind c (fun x => k))
  (at level 100, c at next level, right associativity).
Notation "c ;; k" := (bind c (fun _ => k))
  (at level 100, right associativity).

(** Modelled from the spec: the type [mpf_codec_format_match_f] of the
    [match_formats] member is declared in [mpf_codec_descriptor.h]; the
    specification gives format matching as a predicate over two format
    candidates. *)
Definition mpf_codec_format_match_f : Type := ptr -> ptr -> apt_bool_t.

(** [struct mpf_codec_vtable_t]: a table of function pointers, each of which
    may be null ([None]).  A method receives the pointers the C method
    receives.  The dissector's two in/out parameters ([void **buffer],
    [apr_size_t *size]) are passed by value and their new values returned
    next to the result. *)
Module Vtable.
Record t : Type := Build {
  open_encoder  : option (ptr -> M apt_bool_t);
  close_encoder : option (ptr -> M apt_bool_t);
  open_decoder  : option (ptr -> M apt_bool_t);
  close_decoder : option (ptr -> M apt_bool_t);
  encode        : option (ptr -> ptr -> ptr -> M apt_bool_t);
  decode        : option (ptr -> ptr -> ptr -> M apt_bool_t);
  dissect       : option (ptr -> ptr -> Z -> ptr -> M (apt_bool_t * (ptr * Z)));
  fill          : option (ptr -> ptr -> M apt_bool_t);
  match_formats : option mpf_codec_format_match_f
}.
End Vtable.
Abbreviation mpf_codec_vtable_t := Vtable.t.

(** ** Byte buffers *)

(** Read [n] consecutive bytes starting at [p]; every cell must be
    allocated. *)
Fixpoint load_bytes (m : gmap Z byte) (p : ptr) (n : nat) : option (list byte) :=
  match n with
  | O => Some []
  | S n' =>
      match m !! p, load_bytes m (p + 1) n' with
      | Some b, Some bs => Some (b :: bs)
      | _, _ => None
      end
  end.

(** Write the bytes [bs] at [p], [p+1], ...; every cell must be allocated. *)
Fixpoint store_bytes (m : gmap Z byte) (p : ptr) (bs : list byte) : option (gmap Z byte) :=
  match bs with
  | [] => Some m
  | b :: bs' =>
      match m !! p with
      | Some _ => store_bytes (<[p := b]> m) (p + 1) bs'
      | None => None
      end
  end.

(** Two regions of [n] bytes do not overlap. *)
Definition disjoint_ranges (p q : ptr) (n : Z) : bool :=
  (p + n <=? q) || (q + n <=? p).

(** [memcpy(dst, src, n)]: undefined when either region leaves the allocated
    bytes or when the regions overlap. *)
Definition memcpy (dst src : ptr) (n : Z) : M unit :=
  fun w =>
    if disjoint_ranges dst src n then
      match load_bytes (bytes w) src (Z.to_nat n) with
      | Some bs =>
          match store_bytes (bytes w) dst bs with
          | Some m' => Some (tt, set_bytes m' w)
          | None => None
          end
      | None => None
      end
    else None.

(** A pointer that a library function accepts whatever the length, zero
    included: it points at an allocated byte or just past one.  The null
    pointer and a dangling pointer do neither. *)
Definition valid_pointer (m : gmap Z byte) (p : ptr) : bool :=
  bool_decide (is_Some (m !! p)) || bool_decide (is_Some (m !! (p - 1))).

(** [memset(dst, c, n)]: undefined when [dst] is not a valid pointer, also
    for [n = 0], and when the region leaves the allocated bytes. *)
Definition memset (dst : ptr) (c : byte) (n : Z) : M unit :=
  fun w =>
    if valid_pointer (bytes w) dst then
      match store_bytes (bytes w) dst (replicate (Z.to_nat n) c) with
      | Some m' => Some (tt, set_bytes m' w)
      | None => None
      end
    else None.

(** ** Loads and stores of structure members *)

Definition load_codec (codec : ptr) : M mpf_codec_t :=
  fun w => match codecs w !! codec with
           | Some c => Some (c, w)
           | None => None
           end.

Definition load_frame (frame : ptr) : M mpf_codec_frame_t :=
  fun w => match frames w !! frame with
           | Some f => Some (f, w)
           | None => None
           end.

(** [codec-><member> = v] for each member of [mpf_codec_t]. *)
Definition store_codec (codec : ptr) (upd : mpf_codec_t -> mpf_codec_t) : M unit :=
  fun w => match codecs w !! codec with
           | Some c => Some (tt, set_codecs (<[codec := upd c]> (codecs w)) w)
           | None => None
           end.

Definition with_vtable (v : ptr) (c : mpf_codec_t) : mpf_codec_t :=
  Codec.Build v (Codec.attribs c) (Codec.static_descriptor c)
              (Codec.encoder_obj c) (Codec.decoder_obj c) (Codec.pool c).
Definition with_attribs (v : ptr) (c : mpf_codec_t) : mpf_codec_t :=
  Codec.Build (Codec.vtable c) v (Codec.static_descriptor c)
              (Codec.encoder_obj c) (Codec.decoder_obj c) (Codec.pool c).
Definition with_static_descriptor (v : ptr) (c : mpf_codec_t) : mpf_codec_t :=
  Codec.Build (Codec.vtable c) (Codec.attribs c) v
              (Codec.encoder_obj c) (Codec.decoder_obj c) (Codec.pool c).
Definition with_encoder_obj (v : ptr) (c : mpf_codec_t) : mpf_codec_t :=
  Codec.Build (Codec.vtable c) (Codec.attribs c) (Codec.static_descriptor c)
              v (Codec.decoder_obj c) (Codec.pool c).
Definition with_decoder_obj (v : ptr) (c : mpf_codec_t) : mpf_codec_t :=
  Codec.Build (Codec.vtable c) (Codec.attribs c) (Codec.static_descriptor c)
              (Codec.encoder_obj c) v (Codec.pool c).
Definition with_pool (v : ptr) (c : mpf_codec_t) : mpf_codec_t :=
  Codec.Build (Codec.vtable c) (Codec.attribs c) (Codec.static_descriptor c)
              (Codec.encoder_obj c) (Codec.decoder_obj c) v.

(** ** The functions of the header *)

Section MPF_CODEC.

(** Width in bits of [apr_size_t], which APR fixes per platform. *)
Variable apr_size_bits : Z.

(** The virtual tables of the registered codec families.  They are
    [const] objects, so they live outside the mutable state. *)
Variable vtables : gmap Z mpf_codec_vtable_t.

(** Content of a block just returned by [apr_palloc], which does not
    initialise what it hands out. *)
Variable indeterminate : mpf_codec_t.

(** Unsigned subtraction on [apr_size_t]. *)
Definition apr_size_sub (a b : Z) : Z := (a - b) mod 2 ^ apr_size_bits.

Definition load_vtable (p : ptr) : M mpf_codec_vtable_t :=
  fun w => match vtables !! p with
           | Some vt => Some (vt, w)
           | None => None
           end.

(** [apr_palloc(pool, sizeof(mpf_codec_t))]: a codec object at an address
    that is neither null nor in use. *)
Definition apr_palloc (pool : ptr) : M ptr :=
  fun w =>
    let codec := fresh ({[NULL]} ∪ dom (codecs w)) in
    Some (codec, set_codecs (<[codec := indeterminate]> (codecs w)) w).

Definition mpf_codec_create (vtable attribs descriptor pool : ptr) : M ptr :=
  codec <- apr_palloc pool ;;
  store_codec codec (with_vtable vtable) ;;
  store_codec codec (with_attribs attribs) ;;
  store_codec codec (with_static_descriptor descriptor) ;;
  store_codec codec (with_encoder_obj NULL) ;;
  store_codec codec (with_decoder_obj NULL) ;;
  store_codec codec (with_pool pool) ;;
  ret codec.

Definition mpf_codec_clone (src_codec pool : ptr) : M ptr :=
  codec <- apr_palloc pool ;;
  src <- load_codec src_codec ;;
  store_codec codec (with_vtable (Codec.vtable src)) ;;
  src <- load_codec src_codec ;;
  store_codec codec (with_attribs (Codec.attribs src)) ;;
  src <- load_codec src_codec ;;
  store_codec codec (with_static_descriptor (Codec.static_descriptor src)) ;;
  store_codec codec (with_encoder_obj NULL) ;;
  store_codec codec (with_decoder_obj NULL) ;;
  store_codec codec (with_pool pool) ;;
  ret codec.

(** [codec->vtable], dereferenced. *)
Definition codec_vtable (codec : ptr) : M mpf_codec_vtable_t :=
  c <- load_codec codec ;;
  load_vtable (Codec.vtable c).

Definition mpf_codec_encoder_open (codec : ptr) : M apt_bool_t :=
  vt <- codec_vtable codec ;;
  match Vtable.open_encoder vt with
  | Some open_encoder => open_encoder codec
  | None => ret TRUE
  end.

Definition mpf_codec_encoder_close (codec : ptr) : M apt_bool_t :=
  vt <- codec_vtable codec ;;
  match Vtable.close_encoder vt with
  | Some close_encoder => close_encoder codec
  | None => ret TRUE
  end.

Definition mpf_codec_decoder_open (codec : ptr) : M apt_bool_t :=
  vt <- codec_vtable codec ;;
  match Vtable.open_decoder vt with
  | Some open_decoder => open_decoder codec
  | None => ret TRUE
  end.

Definition mpf_codec_decoder_close (codec : ptr) : M apt_bool_t :=
  vt <- codec_vtable codec ;;
  match Vtable.close_decoder vt with
  | Some close_decoder => close_decoder codec
  | None => ret TRUE
  end.

Definition mpf_codec_encode (codec frame_in frame_out : ptr) : M apt_bool_t :=
  vt <- codec_vtable codec ;;
  match Vtable.encode vt with
  | Some encode => encode codec frame_in frame_out
  | None => ret TRUE
  end.

Definition mpf_codec_decode (codec frame_in frame_out : ptr) : M apt_bool_t :=
  vt <- codec_vtable codec ;;
  match Vtable.decode vt with
  | Some decode => decode codec frame_in frame_out
  | None => ret TRUE
  end.

(** The default dissector, the [else] branch of [mpf_codec_dissect]. *)
Definition default_dissect (buffer : ptr) (size : Z) (frame : ptr)
  : M (apt_bool_t * (ptr * Z)) :=
  f <- load_frame frame ;;
  if (Frame.size f <=? size) && negb (Frame.size f =? 0) then
    f <- load_frame frame ;;
    memcpy (Frame.buffer f) buffer (Frame.size f) ;;
    f <- load_frame frame ;;
    let buffer' := buffer + Frame.size f in
    f <- load_frame frame ;;
    let size' := apr_size_sub size (Frame.size f) in
    ret (TRUE, (buffer', size'))
  else
    ret (FALSE, (buffer, size)).

Definition mpf_codec_dissect (codec : ptr) (buffer : ptr) (size : Z) (frame : ptr)
  : M (apt_bool_t * (ptr * Z)) :=
  vt <- codec_vtable codec ;;
  match Vtable.dissect vt with
  | Some dissect => dissect codec buffer size frame
  | None => default_dissect buffer size frame
  end.

Definition mpf_codec_fill (codec frame_out : ptr) : M apt_bool_t :=
  vt <- codec_vtable codec ;;
  match Vtable.fill vt with
  | Some fill => fill codec frame_out
  | None =>
      f <- load_frame frame_out ;;
      memset (Frame.buffer f) x00 (Frame.size f) ;;
      ret TRUE
  end.

(** *** Callers and preconditions used in the statements below *)

(** The four lifecycle functions of the header. *)
Definition lifecycle_functions : list (ptr -> M apt_bool_t) :=
  [ mpf_codec_encoder_open; mpf_codec_encoder_close;
    mpf_codec_decoder_open; mpf_codec_decoder_close ].

(** The entry of [codec]'s virtual table selected by [sel]: [Some None]
    when the codec is live, its virtual table exists and the entry is a
    null function pointer. *)
Definition method {X} (sel : mpf_codec_vtable_t -> option X)
    (codec : ptr) (w : world) : option (option X) :=
  match codecs w !! codec with
  | Some c =>
      match vtables !! Codec.vtable c with
      | Some vt => Some (sel vt)
      | None => None
      end
  | None => None
  end.

(** The payload of a frame: the [frame->size] bytes at [frame->buffer]. *)
Definition frame_payload (frame : ptr) : M (list byte) :=
  f <- load_frame frame ;;
  fun w =>
    match load_bytes (bytes w) (Frame.buffer f) (Z.to_nat (Frame.size f)) with
    | Some bs => Some (bs, w)
    | None => None
    end.

(** A caller that applies [mpf_codec_dissect] [n] times in a row to one
    cursor and one frame, whatever each call returns, and records for each
    call its result, the cursor it leaves and the payload of the frame
    after it. *)
Fixpoint dissect_repeatedly (n : nat) (codec : ptr) (buffer : ptr) (size : Z)
    (frame : ptr) : M (list (apt_bool_t * (ptr * Z) * list byte)) :=
  match n with
  | O => ret []
  | S n' =>
      r <- mpf_codec_dissect codec buffer size frame ;;
      payload <- frame_payload frame ;;
      rest <- dissect_repeatedly n' codec (fst (snd r)) (snd (snd r)) frame ;;
      ret ((r, payload) :: rest)
  end.

End MPF_CODEC.

(** [n] bytes are allocated at [p]. *)
Definition allocated (w : world) (p : ptr) (n : Z) : bool :=
  match load_bytes (bytes w) p (Z.to_nat n) with
  | Some _ => true
  | None => false
  end.

(** The precondition of [memcpy(dst, src, n)]. *)
Definition memcpy_defined (w : world) (dst src : ptr) (n : Z) : bool :=
  disjoint_ranges dst src n && allocated w src n && allocated w dst n.

(** The precondition of [memset(dst, c, n)]. *)
Definition memset_defined (w : world) (dst : ptr) (n : Z) : bool :=
  valid_pointer (bytes w) dst && allocated w dst n.

(** A virtual method that writes no codec object but the one it is handed. *)
Definition local_method (f : ptr -> M apt_bool_t) : Prop :=
  ∀ codec w r w' other,
    f codec w = Some (r, w') → other ≠ codec →
    codecs w' !! other = codecs w !! other.

(** The lifecycle entries of a virtual table, and the families all of whose
    lifecycle methods are local in the above sense. *)
Definition lifecycle_methods (vt : mpf_codec_vtable_t)
  : list (option (ptr -> M apt_bool_t)) :=
  [ Vtable.open_encoder vt; Vtable.close_encoder vt;
    Vtable.open_decoder vt; Vtable.close_decoder vt ].

Definition local_lifecycle (vtables : gmap Z mpf_codec_vtable_t) : Prop :=
  ∀ p vt impl,
    vtables !! p = Some vt → Some impl ∈ lifecycle_methods vt →
    local_method impl.

(** A caller that runs the given functions on one codec, one after the
    other, and collects what they return. *)
Fixpoint call_in_sequence (ops : list (ptr -> M apt_bool_t)) (codec : ptr)
  : M (list apt_bool_t) :=
  match ops with
  | [] => ret []
  | op :: ops' =>
      rv <- op codec ;;
      rest <- call_in_sequence ops' codec ;;
      ret (rv :: rest)
  end.

(** The entries of a dissection trace whose call returned [TRUE]. *)
Definition dissected (trace : list (apt_bool_t * (ptr * Z) * list byte))
  : list (apt_bool_t * (ptr * Z) * list byte) :=
  filter (λ e, fst (fst e) = TRUE) trace.

(** ** A concrete state

    Two codec families on a 64-bit platform: a linear PCM family that
    implements no method at all, and a stateful family whose encoder
    methods set and clear [encoder_obj].  One codec of each family, a
    50-byte packet at address 1000 holding the bytes 0, 1, ..., 49, and a
    frame of size 20 whose buffer is at address 2000; a second frame object
    over the same buffer has size 0. *)
Module Example.

Definition pcm_vtable : mpf_codec_vtable_t :=
  Vtable.Build None None None None None None None None None.

Definition stateful_open_encoder (codec : ptr) : M apt_bool_t :=
  store_codec codec (with_encoder_obj 4096) ;; ret TRUE.

Definition stateful_close_encoder (codec : ptr) : M apt_bool_t :=
  store_codec codec (with_encoder_obj NULL) ;; ret TRUE.

Definition stateful_vtable : mpf_codec_vtable_t :=
  Vtable.Build (Some stateful_open_encoder) (Some stateful_close_encoder)
               None None None None None None None.

Definition vtables : gmap Z mpf_codec_vtable_t :=
  {[ 16 := pcm_vtable; 32 := stateful_vtable ]}.

Definition garbage : mpf_codec_t := Codec.Build 7 7 7 7 7 7.

Definition packet : list byte :=
  (λ i : nat, default x00 (Byte.of_nat i)) <$> seq 0 50.

Definition cells (p : ptr) (bs : list byte) : list (Z * byte) :=
  zip (seqZ p (Z.of_nat (length bs))) bs.

Definition state : world :=
  World (list_to_map (cells 1000 packet ++ cells 2000 (replicate 20 xff)))
        {[ 64 := Codec.Build 16 24 NULL NULL NULL 8;
           72 := Codec.Build 32 40 48 NULL NULL 8 ]}
        {[ 128 := Frame.Build 2000 20; 136 := Frame.Build 2000 0 ]}.

(** The same state with two more frames of size 0: one whose buffer is
    null, one whose buffer points at no allocated byte. *)
Definition state_with_bad_frames : world :=
  World (bytes state) (codecs state)
        (<[ 144 := Frame.Build NULL 0 ]>
           (<[ 152 := Frame.Build 3000 0 ]> (frames state))).

End Example.

(** ** Byte buffers: what a load sees and what a store leaves *)

Section BYTES.

Implicit Types (m : gmap Z byte) (p a : ptr) (bs : list byte).

Lemma load_bytes_length m p n bs :
  load_bytes m p n = Some bs → length bs = n.
Proof.
  revert p bs. induction n as [|n IH]; intros p bs; simpl.
  - by intros [= <-].
  - destruct (m !! p) as [b|]; [|done].
    destruct (load_bytes m (p + 1) n) as [bs'|] eqn:E; [|done].
    intros [= <-]. simpl. f_equal. by eapply IH.
Qed.

Lemma load_bytes_lookup m p n bs (i : nat) :
  load_bytes m p n = Some bs → (i < n)%nat →
  m !! (p + Z.of_nat i) = bs !! i.
Proof.
  revert p bs i. induction n as [|n IH]; intros p bs i; simpl; [lia|].
  destruct (m !! p) as [b|] eqn:Ep; [|done].
  destruct (load_bytes m (p + 1) n) as [bs'|] eqn:E; [|done].
  intros [= <-] Hi. destruct i as [|i]; simpl.
  - by rewrite Z.add_0_r.
  - rewrite <- (IH (p + 1) bs' i E) by lia. f_equal. lia.
Qed.

Lemma load_bytes_intro m p bs :
  (∀ (i : nat) b, bs !! i = Some b → m !! (p + Z.of_nat i) = Some b) →
  load_bytes m p (length bs) = Some bs.
Proof.
  revert p. induction bs as [|b bs IH]; intros p H; simpl; [done|].
  pose proof (H 0%nat b eq_refl) as H0. simpl in H0.
  rewrite Z.add_0_r in H0. rewrite H0.
  rewrite IH; [done|]. intros i b' Hi.
  rewrite <- (H (S i) b' Hi). f_equal. lia.
Qed.

(** Loading part of a region that loads. *)
Lemma load_bytes_sub m p n bs (k j : nat) :
  load_bytes m p n = Some bs → (k + j ≤ n)%nat →
  load_bytes m (p + Z.of_nat k) j = Some (take j (drop k bs)).
Proof.
  intros Hload Hkj.
  pose proof (load_bytes_length _ _ _ _ Hload) as Hlen.
  assert (length (take j (drop k bs)) = j) as Hl
    by (rewrite length_take, length_drop; lia).
  rewrite <- Hl at 1. apply load_bytes_intro. intros i b Hi.
  assert (i < j)%nat as Hij.
  { apply lookup_lt_Some in Hi. lia. }
  rewrite lookup_take_lt, lookup_drop in Hi by done.
  rewrite <- Hi, <- (load_bytes_lookup m p n bs (k + i) Hload) by lia.
  f_equal. lia.
Qed.

(** A load only depends on the cells it reads. *)
Lemma load_bytes_ext m m' p n :
  (∀ a, p ≤ a < p + Z.of_nat n → m' !! a = m !! a) →
  load_bytes m' p n = load_bytes m p n.
Proof.
  revert p. induction n as [|n IH]; intros p H; simpl; [done|].
  rewrite H by lia. rewrite IH; [done|]. intros a Ha. apply H. lia.
Qed.

(** The cells of a map after a store. *)
Lemma store_bytes_lookup m p bs m' a :
  store_bytes m p bs = Some m' →
  m' !! a = if decide (p ≤ a < p + Z.of_nat (length bs))
            then bs !! Z.to_nat (a - p) else m !! a.
Proof.
  revert m p. induction bs as [|b bs IH]; intros m p; simpl.
  - intros [= <-]. case_decide; [lia|done].
  - destruct (m !! p) as [b0|] eqn:Ep; [|done]. intros Hst.
    rewrite (IH _ _ Hst). repeat case_decide; try lia.
    + replace (Z.to_nat (a - p)) with (S (Z.to_nat (a - (p + 1)))) by lia.
      done.
    + assert (a = p) as -> by lia.
      rewrite lookup_insert_eq. by rewrite Z.sub_diag.
    + rewrite lookup_insert_ne; [done|lia].
Qed.

Lemma store_bytes_outside m p bs m' a :
  store_bytes m p bs = Some m' →
  ¬ (p ≤ a < p + Z.of_nat (length bs)) → m' !! a = m !! a.
Proof.
  intros Hst Ha. rewrite (store_bytes_lookup _ _ _ _ a Hst).
  by case_decide.
Qed.

Lemma store_bytes_load m p bs m' :
  store_bytes m p bs = Some m' → load_bytes m' p (length bs) = Some bs.
Proof.
  intros Hst. apply load_bytes_intro. intros i b Hi.
  rewrite (store_bytes_lookup _ _ _ _ _ Hst).
  pose proof (lookup_lt_Some _ _ _ Hi).
  case_decide; [|lia].
  by replace (Z.to_nat (p + Z.of_nat i - p)) with i by lia.
Qed.

(** A store succeeds on every region that loads. *)
Lemma store_bytes_defined m p bs old :
  load_bytes m p (length bs) = Some old → is_Some (store_bytes m p bs).
Proof.
  revert m p old. induction bs as [|b bs IH]; intros m p old; simpl; [eauto|].
  destruct (m !! p) as [b0|] eqn:Ep; [|done].
  destruct (load_bytes m (p + 1) (length bs)) as [old'|] eqn:E; [|done].
  intros _. apply (IH _ _ old'). rewrite <- E.
  apply load_bytes_ext. intros a Ha. rewrite lookup_insert_ne; [done|lia].
Qed.

(** A store keeps the set of allocated cells. *)
Lemma store_bytes_allocated m p bs m' q n :
  store_bytes m p bs = Some m' →
  is_Some (load_bytes m q n) → is_Some (load_bytes m' q n).
Proof.
  intros Hst [old Hold].
  assert (∀ a, is_Some (m !! a) → is_Some (m' !! a)) as Hal.
  { intros a Ha. rewrite (store_bytes_lookup _ _ _ _ a Hst).
    case_decide; [|done]. apply lookup_lt_is_Some. lia. }
  clear Hst. revert q old Hold. induction n as [|n IH]; intros q old; simpl; [eauto|].
  destruct (m !! q) as [b|] eqn:Eq; [|done].
  destruct (load_bytes m (q + 1) n) as [old'|] eqn:E; [|done]. intros _.
  destruct (Hal q) as [b' ->]; [by rewrite Eq|].
  destruct (IH _ _ E) as [bs' ->]. eauto.
Qed.

(** A store keeps valid pointers valid. *)
Lemma store_bytes_valid_pointer m p bs m' q :
  store_bytes m p bs = Some m' →
  valid_pointer m q = true → valid_pointer m' q = true.
Proof.
  intros Hst.
  assert (∀ a, is_Some (m !! a) → is_Some (m' !! a)) as Hal.
  { intros a Ha. rewrite (store_bytes_lookup _ _ _ _ a Hst).
    case_decide; [|done]. apply lookup_lt_is_Some. lia. }
  unfold valid_pointer. rewrite !orb_true_iff, !bool_decide_eq_true.
  intros [?|?]; auto.
Qed.


End BYTES.

(** ** Running the functions of the header *)

Section RUN.

Variable apr_size_bits : Z.
Variable vtables : gmap Z mpf_codec_vtable_t.
Variable indeterminate : mpf_codec_t.

Lemma bind_run {A B} (c : M A) (k : A → M B) w a w' :
  c w = Some (a, w') → (x <- c ;; k x) w = k a w'.
Proof. unfold bind. by intros ->. Qed.

Lemma load_frame_run frame f w :
  frames w !! frame = Some f → load_frame frame w = Some (f, w).
Proof. unfold load_frame. by intros ->. Qed.

(** Dereferencing [codec->vtable] reads the state and leaves it alone. *)
Lemma codec_vtable_run {X} (sel : mpf_codec_vtable_t → option X) codec w o :
  method vtables sel codec w = Some o →
  ∃ vt, codec_vtable vtables codec w = Some (vt, w) ∧ sel vt = o.
Proof.
  unfold method, codec_vtable, load_codec, load_vtable, bind.
  destruct (codecs w !! codec) as [c|]; [|done].
  destruct (vtables !! Codec.vtable c) as [vt|]; [|done].
  intros [= <-]. eauto.
Qed.

Lemma allocated_true w p n :
  allocated w p n = true ↔ is_Some (load_bytes (bytes w) p (Z.to_nat n)).
Proof.
  unfold allocated. destruct (load_bytes _ _ _); split; eauto; try done.
Qed.

Lemma memcpy_run w dst src n :
  memcpy_defined w dst src n = true →
  ∃ bs m', load_bytes (bytes w) src (Z.to_nat n) = Some bs
         ∧ store_bytes (bytes w) dst bs = Some m'
         ∧ memcpy dst src n w = Some (tt, set_bytes m' w).
Proof.
  unfold memcpy_defined, memcpy.
  intros [[Hd Hs%allocated_true]%andb_prop Ht%allocated_true]%andb_prop.
  rewrite Hd. destruct Hs as [bs Hs]. destruct Ht as [old Ht].
  rewrite Hs. rewrite <- (load_bytes_length _ _ _ _ Hs) in Ht.
  destruct (store_bytes_defined _ _ _ _ Ht) as [m' Hm'].
  rewrite Hm'. eauto.
Qed.

Lemma memset_run w dst c n :
  memset_defined w dst n = true →
  ∃ m', store_bytes (bytes w) dst (replicate (Z.to_nat n) c) = Some m'
      ∧ memset dst c n w = Some (tt, set_bytes m' w).
Proof.
  unfold memset_defined, memset.
  intros [Hv [old Ht]%allocated_true]%andb_prop. rewrite Hv.
  rewrite <- (length_replicate (Z.to_nat n) c) in Ht.
  destruct (store_bytes_defined _ _ _ _ Ht) as [m' Hm'].
  rewrite Hm'. eauto.
Qed.

(** The failing branch of the default dissector. *)
Lemma default_dissect_fails buffer size frame f w :
  frames w !! frame = Some f →
  Frame.size f = 0 ∨ size < Frame.size f →
  default_dissect apr_size_bits buffer size frame w
    = Some ((FALSE, (buffer, size)), w).
Proof.
  intros Hf Hc. unfold default_dissect.
  rewrite (bind_run _ _ _ _ _ (load_frame_run _ _ _ Hf)).
  destruct (Z.leb_spec (Frame.size f) size), (Z.eqb_spec (Frame.size f) 0);
    simpl; try done; lia.
Qed.

(** The copying branch of the default dissector. *)
Lemma default_dissect_copies buffer size frame f w :
  frames w !! frame = Some f →
  Frame.size f ≠ 0 → Frame.size f ≤ size →
  memcpy_defined w (Frame.buffer f) buffer (Frame.size f) = true →
  ∃ bs m',
    load_bytes (bytes w) buffer (Z.to_nat (Frame.size f)) = Some bs
    ∧ store_bytes (bytes w) (Frame.buffer f) bs = Some m'
    ∧ default_dissect apr_size_bits buffer size frame w
        = Some ((TRUE, (buffer + Frame.size f,
                        apr_size_sub apr_size_bits size (Frame.size f))),
                set_bytes m' w).
Proof.
  intros Hf Hnz Hle Hcp. unfold default_dissect.
  rewrite (bind_run _ _ _ _ _ (load_frame_run _ _ _ Hf)).
  destruct (Z.leb_spec (Frame.size f) size), (Z.eqb_spec (Frame.size f) 0);
    simpl; try lia.
  rewrite (bind_run _ _ _ _ _ (load_frame_run _ _ _ Hf)).
  destruct (memcpy_run _ _ _ _ Hcp) as (bs & m' & Hld & Hst & Hrun).
  rewrite (bind_run _ _ _ _ _ Hrun).
  assert (frames (set_bytes m' w) !! frame = Some f) as Hf' by done.
  rewrite !(bind_run _ _ _ _ _ (load_frame_run _ _ _ Hf')).
  exists bs, m'. done.
Qed.

(** Without a custom dissector [mpf_codec_dissect] is the default one. *)
Lemma dissect_default codec buffer size frame w :
  method vtables Vtable.dissect codec w = Some None →
  mpf_codec_dissect apr_size_bits vtables codec buffer size frame w
    = default_dissect apr_size_bits buffer size frame w.
Proof.
  intros (vt & Hvt & Hsel)%codec_vtable_run. unfold mpf_codec_dissect.
  rewrite (bind_run _ _ _ _ _ Hvt). by rewrite Hsel.
Qed.

Lemma apr_size_sub_exact size n :
  0 ≤ n ≤ size → size < 2 ^ apr_size_bits →
  apr_size_sub apr_size_bits size n = size - n.
Proof. intros. unfold apr_size_sub. apply Z.mod_small. lia. Qed.

Lemma frame_payload_run frame f bs w :
  frames w !! frame = Some f →
  load_bytes (bytes w) (Frame.buffer f) (Z.to_nat (Frame.size f)) = Some bs →
  frame_payload frame w = Some (bs, w).
Proof.
  intros Hf Hbs. unfold frame_payload.
  rewrite (bind_run _ _ _ _ _ (load_frame_run _ _ _ Hf)). by rewrite Hbs.
Qed.

(** C1. For a codec whose family supplies no dissector, a call of
    [mpf_codec_dissect] with a frame of size [F > 0] and at least [F]
    bytes remaining (exactly [F] included) returns [TRUE], leaves the
    first [F] bytes of the buffer as the payload of the frame, and
    returns the cursor advanced by [F] and the remaining size reduced by
    [F]. *)
Theorem dissect_default_success codec buffer size frame f data w :
  method vtables Vtable.dissect codec w = Some None →
  frames w !! frame = Some f →
  0 < Frame.size f → Frame.size f ≤ size → size < 2 ^ apr_size_bits →
  memcpy_defined w (Frame.buffer f) buffer (Frame.size f) = true →
  load_bytes (bytes w) buffer (Z.to_nat (Frame.size f)) = Some data →
  ∃ w', mpf_codec_dissect apr_size_bits vtables codec buffer size frame w
          = Some ((TRUE, (buffer + Frame.size f, size - Frame.size f)), w')
        ∧ frame_payload frame w' = Some (data, w').
Proof.
  intros Hm Hf Hpos Hle Hsz Hcp Hdata.
  rewrite (dissect_default _ _ _ _ _ Hm).
  destruct (default_dissect_copies buffer size frame f w Hf)
    as (bs & m' & Hld & Hst & ->); [lia|done|done|].
  rewrite apr_size_sub_exact by lia.
  exists (set_bytes m' w). split; [done|].
  apply (frame_payload_run _ f); [done|]. simpl.
  assert (bs = data) as -> by congruence.
  rewrite <- (load_bytes_length _ _ _ _ Hdata) at 1.
  by eapply store_bytes_load.
Qed.

(** C2. For a codec without a custom dissector, [mpf_codec_dissect]
    returns [FALSE] exactly when the frame size is zero or exceeds the
    remaining size; a failing call returns the cursor and the remaining
    size it was given and leaves the whole state as it was.  A frame of
    size zero always fails this way. *)
Theorem dissect_default_failure codec buffer size frame f w :
  method vtables Vtable.dissect codec w = Some None →
  frames w !! frame = Some f →
  (Frame.size f ≠ 0 → Frame.size f ≤ size →
   memcpy_defined w (Frame.buffer f) buffer (Frame.size f) = true) →
  ∃ rv buffer' size' w',
    mpf_codec_dissect apr_size_bits vtables codec buffer size frame w
      = Some ((rv, (buffer', size')), w')
    ∧ (rv = FALSE ↔ Frame.size f = 0 ∨ size < Frame.size f)
    ∧ (rv = FALSE → buffer' = buffer ∧ size' = size ∧ w' = w)
    ∧ (Frame.size f = 0 → rv = FALSE).
Proof.
  intros Hm Hf Hcp. rewrite (dissect_default _ _ _ _ _ Hm).
  destruct (decide (Frame.size f = 0 ∨ size < Frame.size f)) as [Hc|Hc].
  - rewrite (default_dissect_fails _ _ _ _ _ Hf Hc).
    exists FALSE, buffer, size, w. tauto.
  - destruct (default_dissect_copies buffer size frame f w Hf)
      as (bs & m' & _ & _ & ->); [lia|lia|apply Hcp; lia|].
    eexists TRUE, _, _, _. split; [done|].
    unfold TRUE, FALSE. repeat split; try done; tauto.
Qed.

(** C9. The default dissector keeps the sum of the cursor and the
    remaining size: whatever a call returns, the new cursor plus the new
    remaining size is the old cursor plus the old remaining size, so the
    cursor advances by what the remaining size loses. *)
Theorem dissect_default_cursor_sum codec buffer size frame f w :
  method vtables Vtable.dissect codec w = Some None →
  frames w !! frame = Some f →
  0 ≤ Frame.size f → size < 2 ^ apr_size_bits →
  (Frame.size f ≠ 0 → Frame.size f ≤ size →
   memcpy_defined w (Frame.buffer f) buffer (Frame.size f) = true) →
  ∃ rv buffer' size' w',
    mpf_codec_dissect apr_size_bits vtables codec buffer size frame w
      = Some ((rv, (buffer', size')), w')
    ∧ buffer' + size' = buffer + size
    ∧ buffer' - buffer = size - size'.
Proof.
  intros Hm Hf Hpos Hsz Hcp. rewrite (dissect_default _ _ _ _ _ Hm).
  destruct (decide (Frame.size f = 0 ∨ size < Frame.size f)) as [Hc|Hc].
  - rewrite (default_dissect_fails _ _ _ _ _ Hf Hc).
    exists FALSE, buffer, size, w. split; [done|lia].
  - destruct (default_dissect_copies buffer size frame f w Hf)
      as (bs & m' & _ & _ & ->); [lia|lia|apply Hcp; lia|].
    rewrite apr_size_sub_exact by lia.
    eexists TRUE, _, _, _. split; [done|lia].
Qed.

(** Without a silence generator [mpf_codec_fill] is a [memset]. *)
Lemma fill_default codec frame_out f w :
  method vtables Vtable.fill codec w = Some None →
  frames w !! frame_out = Some f →
  memset_defined w (Frame.buffer f) (Frame.size f) = true →
  ∃ m', store_bytes (bytes w) (Frame.buffer f)
                    (replicate (Z.to_nat (Frame.size f)) x00) = Some m'
      ∧ mpf_codec_fill vtables codec frame_out w
          = Some (TRUE, set_bytes m' w).
Proof.
  intros (vt & Hvt & Hsel)%codec_vtable_run Hf Hal. unfold mpf_codec_fill.
  rewrite (bind_run _ _ _ _ _ Hvt). rewrite Hsel.
  rewrite (bind_run _ _ _ _ _ (load_frame_run _ _ _ Hf)).
  destruct (memset_run w (Frame.buffer f) x00 (Frame.size f) Hal)
    as (m' & Hst & Hrun).
  rewrite (bind_run _ _ _ _ _ Hrun). eauto.
Qed.

(** C4. On a codec whose family supplies no silence generator,
    [mpf_codec_fill] returns [TRUE] and leaves a zero in each of the [N]
    bytes of a frame of declared size [N]. *)
Theorem fill_default_zero codec frame_out f w :
  method vtables Vtable.fill codec w = Some None →
  frames w !! frame_out = Some f →
  memset_defined w (Frame.buffer f) (Frame.size f) = true →
  ∃ w', mpf_codec_fill vtables codec frame_out w = Some (TRUE, w')
      ∧ (∀ i, 0 ≤ i < Frame.size f →
              bytes w' !! (Frame.buffer f + i) = Some x00)
      ∧ frame_payload frame_out w'
          = Some (replicate (Z.to_nat (Frame.size f)) x00, w').
Proof.
  intros Hm Hf Hal.
  destruct (fill_default _ _ _ _ Hm Hf Hal) as (m' & Hst & ->).
  exists (set_bytes m' w). split; [done|]. split.
  - intros i Hi. simpl. rewrite (store_bytes_lookup _ _ _ _ _ Hst).
    rewrite length_replicate. case_decide; [|lia].
    apply lookup_replicate_2. lia.
  - apply (frame_payload_run _ f); [done|]. simpl.
    rewrite <- (length_replicate (Z.to_nat (Frame.size f)) x00) at 1.
    by eapply store_bytes_load.
Qed.

(** C10. The default dissector, whenever a whole frame is left
    ([frame->size] is not zero and does not exceed the remaining size),
    and the default fill, always, write each of the [frame->size] bytes at
    [frame->buffer]; the dissector writes nothing at all otherwise; neither
    writes any byte outside that extent, and both leave the frame object,
    its size member included, as it was. *)
Theorem default_writes_frame_extent codec buffer size frame f w :
  frames w !! frame = Some f →
  (method vtables Vtable.dissect codec w = Some None →
   (Frame.size f ≠ 0 → Frame.size f ≤ size →
    memcpy_defined w (Frame.buffer f) buffer (Frame.size f) = true) →
   ∃ rv cursor w',
     mpf_codec_dissect apr_size_bits vtables codec buffer size frame w
       = Some ((rv, cursor), w')
     ∧ frames w' = frames w
     ∧ (∀ a, ¬ (Frame.buffer f ≤ a < Frame.buffer f + Frame.size f) →
             bytes w' !! a = bytes w !! a)
     ∧ (Frame.size f ≠ 0 → Frame.size f ≤ size →
        rv = TRUE
        ∧ ∀ i, 0 ≤ i < Frame.size f →
               is_Some (bytes w !! (buffer + i))
               ∧ bytes w' !! (Frame.buffer f + i) = bytes w !! (buffer + i))
     ∧ (Frame.size f = 0 ∨ size < Frame.size f →
        rv = FALSE ∧ bytes w' = bytes w))
  ∧ (method vtables Vtable.fill codec w = Some None →
     memset_defined w (Frame.buffer f) (Frame.size f) = true →
     ∃ w',
       mpf_codec_fill vtables codec frame w = Some (TRUE, w')
       ∧ frames w' = frames w
       ∧ (∀ a, ¬ (Frame.buffer f ≤ a < Frame.buffer f + Frame.size f) →
               bytes w' !! a = bytes w !! a)
       ∧ (∀ i, 0 ≤ i < Frame.size f →
               bytes w' !! (Frame.buffer f + i) = Some x00)).
Proof.
  intros Hf. split.
  - intros Hm Hcp. rewrite (dissect_default _ _ _ _ _ Hm).
    destruct (decide (Frame.size f = 0 ∨ size < Frame.size f)) as [Hc|Hc].
    + rewrite (default_dissect_fails _ _ _ _ _ Hf Hc).
      exists FALSE, (buffer, size), w.
      split; [done|]. split; [done|]. split; [done|]. split; [|done].
      intros ? ?. lia.
    + destruct (default_dissect_copies buffer size frame f w Hf)
        as (bs & m' & Hld & Hst & ->); [lia|lia|apply Hcp; lia|].
      pose proof (load_bytes_length _ _ _ _ Hld) as Hlen.
      eexists TRUE, _, _. split; [done|]. split; [done|]. split; [|split].
      * intros a Ha. simpl. apply (store_bytes_outside _ _ _ _ _ Hst). lia.
      * intros _ _. split; [done|]. intros i Hi.
        assert (bytes w !! (buffer + i) = bs !! Z.to_nat i) as Hsrc.
        { rewrite <- (load_bytes_lookup _ _ _ _ (Z.to_nat i) Hld) by lia.
          f_equal. lia. }
        split.
        { rewrite Hsrc. apply lookup_lt_is_Some. lia. }
        simpl. rewrite (store_bytes_lookup _ _ _ _ _ Hst).
        case_decide; [|lia].
        replace (Z.to_nat (Frame.buffer f + i - Frame.buffer f))
          with (Z.to_nat i) by lia.
        done.
      * intros Hc'. tauto.
  - intros Hm Hal.
    destruct (fill_default _ _ _ _ Hm Hf Hal) as (m' & Hst & ->).
    exists (set_bytes m' w). split; [done|]. split; [done|]. split.
    + intros a Ha. simpl. apply (store_bytes_outside _ _ _ _ _ Hst).
      rewrite length_replicate. lia.
    + intros i Hi. simpl. rewrite (store_bytes_lookup _ _ _ _ _ Hst).
      rewrite length_replicate. case_decide; [|lia].
      apply lookup_replicate_2. lia.
Qed.

(** C5. On a codec whose family declares no [encode] (no [decode]),
    [mpf_codec_encode] ([mpf_codec_decode]) returns [TRUE] and the state
    after the call is the state before it: the output frame and every byte
    of its buffer are as they were. *)
Theorem encode_decode_absent codec frame_in frame_out w :
  (method vtables Vtable.encode codec w = Some None →
   mpf_codec_encode vtables codec frame_in frame_out w = Some (TRUE, w))
  ∧ (method vtables Vtable.decode codec w = Some None →
     mpf_codec_decode vtables codec frame_in frame_out w = Some (TRUE, w)).
Proof.
  split; intros (vt & Hvt & Hsel)%codec_vtable_run.
  - unfold mpf_codec_encode. rewrite (bind_run _ _ _ _ _ Hvt). by rewrite Hsel.
  - unfold mpf_codec_decode. rewrite (bind_run _ _ _ _ _ Hvt). by rewrite Hsel.
Qed.

Lemma codec_vtable_live codec c vt w :
  codecs w !! codec = Some c → vtables !! Codec.vtable c = Some vt →
  codec_vtable vtables codec w = Some (vt, w).
Proof.
  intros Hc Hvt. unfold codec_vtable, load_codec, load_vtable, bind.
  by rewrite Hc, Hvt.
Qed.

(** C6. Each of [mpf_codec_encoder_open], [mpf_codec_encoder_close],
    [mpf_codec_decoder_open] and [mpf_codec_decoder_close] returns [TRUE]
    and leaves the state as it was when the family declares no such
    method, and otherwise does and returns what the family's method does
    and returns on this codec. *)
Theorem lifecycle_dispatch codec c vt w :
  codecs w !! codec = Some c →
  vtables !! Codec.vtable c = Some vt →
  ((Vtable.open_encoder vt = None →
    mpf_codec_encoder_open vtables codec w = Some (TRUE, w))
   ∧ (∀ impl, Vtable.open_encoder vt = Some impl →
      mpf_codec_encoder_open vtables codec w = impl codec w))
  ∧ ((Vtable.close_encoder vt = None →
      mpf_codec_encoder_close vtables codec w = Some (TRUE, w))
     ∧ (∀ impl, Vtable.close_encoder vt = Some impl →
        mpf_codec_encoder_close vtables codec w = impl codec w))
  ∧ ((Vtable.open_decoder vt = None →
      mpf_codec_decoder_open vtables codec w = Some (TRUE, w))
     ∧ (∀ impl, Vtable.open_decoder vt = Some impl →
        mpf_codec_decoder_open vtables codec w = impl codec w))
  ∧ ((Vtable.close_decoder vt = None →
      mpf_codec_decoder_close vtables codec w = Some (TRUE, w))
     ∧ (∀ impl, Vtable.close_decoder vt = Some impl →
        mpf_codec_decoder_close vtables codec w = impl codec w)).
Proof.
  intros Hc Hvt. pose proof (codec_vtable_live _ _ _ _ Hc Hvt) as Hrun.
  unfold mpf_codec_encoder_open, mpf_codec_encoder_close,
    mpf_codec_decoder_open, mpf_codec_decoder_close.
  rewrite !(bind_run _ _ _ _ _ Hrun).
  repeat split; first [by intros -> | by intros impl ->].
Qed.

(** *** Allocation and member stores *)

Lemma store_codec_insert b m fr codec v upd :
  store_codec codec upd (World b (<[codec := v]> m) fr)
    = Some (tt, World b (<[codec := upd v]> m) fr).
Proof.
  unfold store_codec, set_codecs. simpl.
  by rewrite lookup_insert_eq, insert_insert_eq.
Qed.

Lemma fresh_codec w :
  let codec := fresh ({[NULL]} ∪ dom (codecs w)) in
  codec ≠ NULL ∧ codecs w !! codec = None.
Proof.
  intros codec. pose proof (is_fresh ({[NULL]} ∪ dom (codecs w))) as Hfr.
  fold codec in Hfr. split.
  - intros E. apply Hfr. set_solver.
  - apply not_elem_of_dom. set_solver.
Qed.

Lemma mpf_codec_create_run vtable attribs descriptor pool w :
  let codec := fresh ({[NULL]} ∪ dom (codecs w)) in
  mpf_codec_create indeterminate vtable attribs descriptor pool w
    = Some (codec,
            set_codecs (<[codec := Codec.Build vtable attribs descriptor
                                               NULL NULL pool]> (codecs w)) w).
Proof.
  intros codec. destruct w as [b m fr].
  unfold mpf_codec_create, apr_palloc, bind, set_codecs. simpl. fold codec.
  repeat (rewrite store_codec_insert; simpl). done.
Qed.

Lemma mpf_codec_clone_run src_codec pool src w :
  codecs w !! src_codec = Some src →
  let codec := fresh ({[NULL]} ∪ dom (codecs w)) in
  mpf_codec_clone indeterminate src_codec pool w
    = Some (codec,
            set_codecs (<[codec := Codec.Build (Codec.vtable src)
                                     (Codec.attribs src)
                                     (Codec.static_descriptor src)
                                     NULL NULL pool]> (codecs w)) w).
Proof.
  intros Hsrc codec. destruct (fresh_codec w) as [_ Hfr]. fold codec in Hfr.
  assert (codec ≠ src_codec) as Hne by congruence.
  destruct w as [b m fr]. simpl in *.
  assert (∀ v, load_codec src_codec (World b (<[codec := v]> m) fr)
               = Some (src, World b (<[codec := v]> m) fr)) as Hload.
  { intros v. unfold load_codec. simpl.
    by rewrite lookup_insert_ne, Hsrc. }
  unfold mpf_codec_clone, apr_palloc, bind, set_codecs. simpl. fold codec.
  repeat (rewrite ?Hload, ?store_codec_insert; simpl). done.
Qed.

(** C8. [mpf_codec_create] returns, for any four arguments, a new codec
    object whose [vtable], [attribs], [static_descriptor] and [pool]
    members are the arguments and whose [encoder_obj] and [decoder_obj] are
    null; nothing else in the state changes. *)
Theorem create_members vtable attribs descriptor pool w :
  ∃ codec w',
    mpf_codec_create indeterminate vtable attribs descriptor pool w
      = Some (codec, w')
    ∧ codec ≠ NULL
    ∧ codecs w !! codec = None
    ∧ codecs w' !! codec
        = Some (Codec.Build vtable attribs descriptor NULL NULL pool)
    ∧ (∀ other, other ≠ codec → codecs w' !! other = codecs w !! other)
    ∧ bytes w' = bytes w
    ∧ frames w' = frames w.
Proof.
  destruct (fresh_codec w) as [Hnull Hfr].
  eexists _, _. split; [apply mpf_codec_create_run|].
  repeat split; try done; simpl.
  - apply lookup_insert_eq.
  - intros other Hne. by rewrite lookup_insert_ne.
Qed.

(** A store to one codec object leaves every other codec object alone. *)
Lemma store_codec_other codec upd w w' other :
  store_codec codec upd w = Some (tt, w') → other ≠ codec →
  codecs w' !! other = codecs w !! other.
Proof.
  unfold store_codec. destruct (codecs w !! codec); [|done].
  intros [= <-] Hne. simpl. by rewrite lookup_insert_ne.
Qed.

(** A lifecycle function run on one codec of a family with local lifecycle
    methods leaves every other codec object alone. *)
Lemma lifecycle_other op codec w r w' other :
  local_lifecycle vtables →
  op ∈ lifecycle_functions vtables →
  op codec w = Some (r, w') → other ≠ codec →
  codecs w' !! other = codecs w !! other.
Proof.
  intros Hloc Hop Hrun Hne. unfold lifecycle_functions in Hop.
  rewrite !elem_of_cons, elem_of_nil in Hop.
  destruct Hop as [->|[->|[->|[->|[]]]]];
    unfold mpf_codec_encoder_open, mpf_codec_encoder_close,
      mpf_codec_decoder_open, mpf_codec_decoder_close,
      codec_vtable, load_codec, load_vtable, bind in Hrun;
    destruct (codecs w !! codec) as [c|]; try done;
    destruct (vtables !! Codec.vtable c) as [vt|] eqn:Evt; try done;
    pose proof (λ impl, Hloc _ vt impl Evt) as Hvt;
    unfold lifecycle_methods in Hvt.
  - destruct (Vtable.open_encoder vt) as [impl|];
      [|by injection Hrun as _ <-].
    eapply (Hvt impl); [set_solver|done|done].
  - destruct (Vtable.close_encoder vt) as [impl|];
      [|by injection Hrun as _ <-].
    eapply (Hvt impl); [set_solver|done|done].
  - destruct (Vtable.open_decoder vt) as [impl|];
      [|by injection Hrun as _ <-].
    eapply (Hvt impl); [set_solver|done|done].
  - destruct (Vtable.close_decoder vt) as [impl|];
      [|by injection Hrun as _ <-].
    eapply (Hvt impl); [set_solver|done|done].
Qed.

(** C7. [mpf_codec_clone] returns a new codec object, distinct from the
    source, whose [vtable], [attribs] and [static_descriptor] members are
    the source's pointers, whose [encoder_obj] and [decoder_obj] are null
    and whose [pool] is the given pool; the source is unchanged.  From then
    on a store to a member of either object, and any lifecycle function
    (such as [mpf_codec_encoder_open]) whose family method writes only the
    codec it is handed, leave the other object as it is. *)
Theorem clone_independent src_codec pool src w :
  codecs w !! src_codec = Some src →
  local_lifecycle vtables →
  ∃ codec w',
    mpf_codec_clone indeterminate src_codec pool w = Some (codec, w')
    ∧ codec ≠ NULL ∧ codec ≠ src_codec ∧ codecs w !! codec = None
    ∧ codecs w' !! codec
        = Some (Codec.Build (Codec.vtable src) (Codec.attribs src)
                            (Codec.static_descriptor src) NULL NULL pool)
    ∧ codecs w' !! src_codec = Some src
    ∧ (∀ upd w1 w2, store_codec codec upd w1 = Some (tt, w2) →
                    codecs w2 !! src_codec = codecs w1 !! src_codec)
    ∧ (∀ upd w1 w2, store_codec src_codec upd w1 = Some (tt, w2) →
                    codecs w2 !! codec = codecs w1 !! codec)
    ∧ (∀ op r w1 w2, op ∈ lifecycle_functions vtables →
                     op codec w1 = Some (r, w2) →
                     codecs w2 !! src_codec = codecs w1 !! src_codec)
    ∧ (∀ op r w1 w2, op ∈ lifecycle_functions vtables →
                     op src_codec w1 = Some (r, w2) →
                     codecs w2 !! codec = codecs w1 !! codec).
Proof.
  intros Hsrc Hloc. destruct (fresh_codec w) as [Hnull Hfr].
  assert (fresh ({[NULL]} ∪ dom (codecs w)) ≠ src_codec) as Hne by congruence.
  eexists _, _. split; [by apply mpf_codec_clone_run|].
  repeat split; try done; simpl.
  - apply lookup_insert_eq.
  - by rewrite lookup_insert_ne.
  - intros upd w1 w2 Hst. by eapply store_codec_other.
  - intros upd w1 w2 Hst. by eapply store_codec_other.
  - intros op r w1 w2 Hop Hrun. by eapply lifecycle_other.
  - intros op r w1 w2 Hop Hrun. by eapply lifecycle_other.
Qed.

(** *** Repeated dissection *)

Lemma div_mod_step size F :
  0 < F → F ≤ size →
  (size - F) / F = size / F - 1 ∧ (size - F) mod F = size mod F.
Proof.
  intros HF Hle. replace (size - F) with (size + (-1) * F) by lia.
  rewrite Z.div_add, Z.mod_add by lia. lia.
Qed.

(** The state after a copying call still meets what the next call needs. *)
Lemma dissect_step_state buffer size f data m' w :
  0 < Frame.size f → Frame.size f ≤ size →
  load_bytes (bytes w) buffer (Z.to_nat size) = Some data →
  allocated w (Frame.buffer f) (Frame.size f) = true →
  Frame.buffer f + Frame.size f ≤ buffer ∨ buffer + size ≤ Frame.buffer f →
  store_bytes (bytes w) (Frame.buffer f)
              (take (Z.to_nat (Frame.size f)) data) = Some m' →
  load_bytes m' (buffer + Frame.size f) (Z.to_nat (size - Frame.size f))
    = Some (drop (Z.to_nat (Frame.size f)) data)
  ∧ allocated (set_bytes m' w) (Frame.buffer f) (Frame.size f) = true.
Proof.
  intros HF Hle Hdata Hal Hdisj Hst.
  pose proof (load_bytes_length _ _ _ _ Hdata) as Hlen. split.
  - rewrite (load_bytes_ext (bytes w)).
    + replace (buffer + Frame.size f)
        with (buffer + Z.of_nat (Z.to_nat (Frame.size f))) by lia.
      rewrite (load_bytes_sub _ _ _ _ _ _ Hdata) by lia.
      f_equal. apply take_ge. rewrite length_drop. lia.
    + intros a Ha. apply (store_bytes_outside _ _ _ _ _ Hst).
      rewrite length_take. lia.
  - apply allocated_true. eapply store_bytes_allocated; [done|].
    by apply allocated_true.
Qed.

(** C3. Applied again and again to a buffer of [S] bytes with a frame of
    fixed size [F > 0], the default dissector returns [TRUE] on the first
    [S / F] calls, the call number [i] (from zero) leaving the cursor at
    byte [(i+1)*F] of the buffer, [S - (i+1)*F] bytes remaining and bytes
    [i*F .. (i+1)*F) of the buffer as the payload of the frame; every later
    call returns [FALSE] with the remaining size at [S mod F]; the cursor
    never passes the end of the buffer. *)
Theorem dissect_default_exhaustion n codec buffer size frame f data w :
  method vtables Vtable.dissect codec w = Some None →
  frames w !! frame = Some f →
  0 < Frame.size f → 0 ≤ size → size < 2 ^ apr_size_bits →
  load_bytes (bytes w) buffer (Z.to_nat size) = Some data →
  allocated w (Frame.buffer f) (Frame.size f) = true →
  Frame.buffer f + Frame.size f ≤ buffer ∨ buffer + size ≤ Frame.buffer f →
  ∃ trace w',
    dissect_repeatedly apr_size_bits vtables n codec buffer size frame w
      = Some (trace, w')
    ∧ length trace = n
    ∧ ∀ (i : nat) rv buffer' size' payload,
        trace !! i = Some (rv, (buffer', size'), payload) →
        buffer' ≤ buffer + size
        ∧ (Z.of_nat i < size / Frame.size f →
           rv = TRUE
           ∧ buffer' = buffer + (Z.of_nat i + 1) * Frame.size f
           ∧ size' = size - (Z.of_nat i + 1) * Frame.size f
           ∧ payload = take (Z.to_nat (Frame.size f))
                            (drop (i * Z.to_nat (Frame.size f)) data))
        ∧ (size / Frame.size f ≤ Z.of_nat i →
           rv = FALSE
           ∧ buffer' = buffer + size / Frame.size f * Frame.size f
           ∧ size' = size mod Frame.size f).
Proof.
  intros Hm Hf HF. revert buffer size data w Hm Hf.
  induction n as [|n IH]; intros buffer size data w Hm Hf H0 Hsz Hdata Hal Hdisj.
  { exists [], w. repeat split; try done. }
  pose proof (load_bytes_length _ _ _ _ Hdata) as Hlen.
  simpl dissect_repeatedly.
  pose proof (dissect_default _ buffer size frame _ Hm) as Hdd.
  destruct (decide (size < Frame.size f)) as [Hlt|Hge].
  - (* too few bytes left: the call fails and nothing moves *)
    rewrite (default_dissect_fails _ _ _ _ _ Hf (or_intror Hlt)) in Hdd.
    rewrite (bind_run _ _ _ _ _ Hdd).
    destruct (proj1 (allocated_true _ _ _) Hal) as [old Hold].
    rewrite (bind_run _ _ _ _ _ (frame_payload_run _ _ _ _ Hf Hold)).
    destruct (IH buffer size data w Hm Hf H0 Hsz Hdata Hal Hdisj)
      as (trace & w' & Hrun & Hlen' & Htrace).
    simpl fst; simpl snd. rewrite (bind_run _ _ _ _ _ Hrun).
    exists ((FALSE, (buffer, size), old) :: trace), w'.
    split; [done|]. split; [simpl; lia|].
    assert (size / Frame.size f = 0) as Hq by (apply Z.div_small; lia).
    assert (size mod Frame.size f = size) as Hr by (apply Z.mod_small; lia).
    intros [|i] rv buffer' size' payload Hi; simpl in Hi.
    + injection Hi as <- <- <- <-. rewrite Hq, Hr. repeat split; lia.
    + apply (Htrace i rv buffer' size' payload) in Hi as (Hend & _ & Hfail).
      split; [done|]. split; [lia|]. intros _. apply Hfail. lia.
  - (* a whole frame is left: the call copies it and moves on *)
    assert (memcpy_defined w (Frame.buffer f) buffer (Frame.size f) = true)
      as Hcp.
    { unfold memcpy_defined, disjoint_ranges. rewrite Hal.
      rewrite !andb_true_iff. repeat split.
      - apply orb_true_iff. rewrite !Z.leb_le. lia.
      - apply allocated_true. exists (take (Z.to_nat (Frame.size f)) data).
        rewrite <- (Z.add_0_r buffer).
        rewrite (load_bytes_sub _ _ _ _ 0 _ Hdata) by lia. done. }
    destruct (default_dissect_copies buffer size frame f w Hf)
      as (bs & m' & Hld & Hst & Hrun); [lia|lia|done|].
    assert (bs = take (Z.to_nat (Frame.size f)) data) as ->.
    { rewrite <- (Z.add_0_r buffer) in Hld.
      rewrite (load_bytes_sub _ _ _ _ 0 _ Hdata) in Hld by lia.
      by injection Hld as <-. }
    rewrite Hrun, apr_size_sub_exact in Hdd by lia.
    rewrite (bind_run _ _ _ _ _ Hdd).
    assert (frame_payload frame (set_bytes m' w)
            = Some (take (Z.to_nat (Frame.size f)) data, set_bytes m' w))
      as Hpay.
    { apply (frame_payload_run _ f); [done|]. simpl.
      pose proof (store_bytes_load _ _ _ _ Hst) as Hl.
      rewrite length_take in Hl.
      by replace (Z.to_nat (Frame.size f) `min` length data)%nat
        with (Z.to_nat (Frame.size f)) in Hl by lia. }
    rewrite (bind_run _ _ _ _ _ Hpay). simpl fst; simpl snd.
    destruct (dissect_step_state buffer size f data m' w)
      as [Hdata' Hal']; try done; [lia|].
    destruct (IH (buffer + Frame.size f) (size - Frame.size f)
                 (drop (Z.to_nat (Frame.size f)) data) (set_bytes m' w))
      as (trace & w' & Hrun' & Hlen' & Htrace); try done; try lia.
    rewrite (bind_run _ _ _ _ _ Hrun').
    eexists (_ :: trace), w'. split; [done|]. split; [simpl; lia|].
    destruct (div_mod_step size (Frame.size f)) as [Hq Hr]; [lia|lia|].
    assert (0 < size / Frame.size f) as Hpos by (apply Z.div_str_pos; lia).
    pose proof (Z.mul_div_le size (Frame.size f) HF) as Hmul.
    intros [|i] rv buffer' size' payload Hi; simpl in Hi.
    + injection Hi as <- <- <- <-. split; [lia|]. split; [|lia].
      intros _. unfold TRUE. repeat split; lia.
    + apply (Htrace i rv buffer' size' payload) in Hi as (Hend & Hok & Hfail).
      rewrite Hq, Hr in *. split; [lia|]. split.
      * intros Hi. destruct Hok as (-> & -> & -> & ->); [lia|].
        repeat split; try lia. rewrite drop_drop. do 2 f_equal; lia.
      * intros Hi. destruct Hfail as (-> & -> & ->); [lia|].
        repeat split; lia.
Qed.

End RUN.

Example zero_size_frame :
  mpf_codec_dissect 64 Example.vtables 64 1000 50 136 Example.state
  = Some ((FALSE, (1000, 50)), Example.state).
Proof. vm_compute. reflexivity. Qed.

Example open_then_clone :
  (mpf_codec_encoder_open Example.vtables 72 ;;
   clone <- mpf_codec_clone Example.garbage 72 9 ;;
   src <- load_codec 72 ;;
   new <- load_codec clone ;;
   ret (Codec.encoder_obj src, Codec.encoder_obj new)) Example.state
  ≫= (λ r, Some (fst r))
  = Some (4096, NULL).
Proof. vm_compute. reflexivity. Qed.

Example fill_null_frame :
  mpf_codec_fill Example.vtables 64 144 Example.state_with_bad_frames = None.
Proof. vm_compute. reflexivity. Qed.

Example fill_dangling_frame :
  mpf_codec_fill Example.vtables 64 152 Example.state_with_bad_frames = None.
Proof. vm_compute. reflexivity. Qed.

Example fill_empty_frame :
  mpf_codec_fill Example.vtables 64 136 Example.state
  = Some (TRUE, Example.state).
Proof. vm_compute. reflexivity. Qed.

Example scenario_50_20 :
  fst <$> dissect_repeatedly 64 Example.vtables 3 64 1000 50 128 Example.state
  = Some [ (TRUE, (1020, 30), take 20 Example.packet);
           (TRUE, (1040, 10), take 20 (drop 20 Example.packet));
           (FALSE, (1040, 10), take 20 (drop 20 Example.packet)) ].
Proof. vm_compute. reflexivity. Qed.

(** ** The statements at the concrete state *)

(** The exact-boundary call: 20 bytes left at byte 30 of the packet, frame
    size 20. *)
Lemma dissect_default_success_witness :
  ∃ w', mpf_codec_dissect 64 Example.vtables 64 1030 20 128 Example.state
          = Some ((TRUE, (1050, 0)), w')
        ∧ frame_payload 128 w' = Some (drop 30 Example.packet, w').
Proof.
  apply (dissect_default_success 64 Example.vtables 64 1030 20 128
           (Frame.Build 2000 20) (drop 30 Example.packet) Example.state);
    [reflexivity | reflexivity | reflexivity | simpl; lia | simpl; lia
    | reflexivity | reflexivity].
Defined.

(** The truncated call: 10 bytes left, frame size 20. *)
Lemma dissect_default_failure_witness :
  ∃ rv buffer' size' w',
    mpf_codec_dissect 64 Example.vtables 64 1040 10 128 Example.state
      = Some ((rv, (buffer', size')), w')
    ∧ (rv = FALSE ↔ 20 = 0 ∨ 10 < 20)
    ∧ (rv = FALSE → buffer' = 1040 ∧ size' = 10 ∧ w' = Example.state)
    ∧ (20 = 0 → rv = FALSE).
Proof.
  apply (dissect_default_failure 64 Example.vtables 64 1040 10 128
           (Frame.Build 2000 20) Example.state);
    [reflexivity | reflexivity | simpl; lia].
Defined.

(** Three calls on the 50-byte packet with frame size 20. *)
Lemma dissect_default_exhaustion_witness :
  ∃ trace w',
    dissect_repeatedly 64 Example.vtables 3 64 1000 50 128 Example.state
      = Some (trace, w')
    ∧ length trace = 3%nat
    ∧ ∀ (i : nat) rv buffer' size' payload,
        trace !! i = Some (rv, (buffer', size'), payload) →
        buffer' ≤ 1000 + 50
        ∧ (Z.of_nat i < 50 / 20 →
           rv = TRUE
           ∧ buffer' = 1000 + (Z.of_nat i + 1) * 20
           ∧ size' = 50 - (Z.of_nat i + 1) * 20
           ∧ payload = take 20 (drop (i * 20) Example.packet))
        ∧ (50 / 20 ≤ Z.of_nat i →
           rv = FALSE ∧ buffer' = 1000 + 50 / 20 * 20 ∧ size' = 50 mod 20).
Proof.
  apply (dissect_default_exhaustion 64 Example.vtables 3 64 1000 50 128
           (Frame.Build 2000 20) Example.packet Example.state);
    [reflexivity | reflexivity | reflexivity | lia | lia
    | reflexivity | reflexivity | simpl; lia].
Defined.

(** Silence in the 20-byte frame through the PCM codec. *)
Lemma fill_default_zero_witness :
  ∃ w', mpf_codec_fill Example.vtables 64 128 Example.state = Some (TRUE, w')
      ∧ (∀ i, 0 ≤ i < 20 → bytes w' !! (2000 + i) = Some x00)
      ∧ frame_payload 128 w' = Some (replicate 20 x00, w').
Proof.
  apply (fill_default_zero Example.vtables 64 128 (Frame.Build 2000 20)
           Example.state); reflexivity.
Defined.

(** Encoding and decoding through the PCM codec. *)
Lemma encode_decode_absent_witness :
  mpf_codec_encode Example.vtables 64 128 136 Example.state
    = Some (TRUE, Example.state)
  ∧ mpf_codec_decode Example.vtables 64 128 136 Example.state
      = Some (TRUE, Example.state).
Proof.
  destruct (encode_decode_absent Example.vtables 64 128 136 Example.state)
    as [Henc Hdec].
  split; [apply Henc | apply Hdec]; reflexivity.
Defined.

(** The stateful codec: its encoder methods are the family's, its decoder
    methods are absent. *)
Lemma lifecycle_dispatch_witness :
  mpf_codec_encoder_open Example.vtables 72 Example.state
    = Example.stateful_open_encoder 72 Example.state
  ∧ mpf_codec_encoder_close Example.vtables 72 Example.state
      = Example.stateful_close_encoder 72 Example.state
  ∧ mpf_codec_decoder_open Example.vtables 72 Example.state
      = Some (TRUE, Example.state)
  ∧ mpf_codec_decoder_close Example.vtables 72 Example.state
      = Some (TRUE, Example.state).
Proof.
  destruct (lifecycle_dispatch Example.vtables 72
              (Codec.Build 32 40 48 NULL NULL 8) Example.stateful_vtable
              Example.state)
    as ((_ & Hoe) & (_ & Hce) & (Hod & _) & (Hcd & _));
    [reflexivity | reflexivity |].
  split; [apply Hoe; reflexivity|].
  split; [apply Hce; reflexivity|].
  split; [apply Hod | apply Hcd]; reflexivity.
Defined.

(** The lifecycle methods of the example families write only their
    codec. *)
Lemma example_local_lifecycle : local_lifecycle Example.vtables.
Proof.
  assert (∀ v, local_method (λ codec,
            store_codec codec (with_encoder_obj v) ;; ret TRUE)) as Hst.
  { intros v codec w r w' other Hrun Hne. unfold bind, ret in Hrun.
    destruct (store_codec codec (with_encoder_obj v) w) as [[[] w1]|] eqn:E;
      [|done].
    injection Hrun as _ <-. by eapply store_codec_other. }
  intros p vt impl. unfold Example.vtables.
  intros [[_ <-]|[_ [_ <-]%lookup_singleton_Some]]%lookup_insert_Some;
    unfold lifecycle_methods; simpl;
    rewrite !elem_of_cons, elem_of_nil; intros Hin.
  - by destruct Hin as [?|[?|[?|[?|[]]]]].
  - destruct Hin as [[= ->]|[[= ->]|[?|[?|[]]]]]; try done; apply Hst.
Qed.

(** Cloning the stateful codec into pool 9. *)
Lemma clone_independent_witness :
  ∃ codec w',
    mpf_codec_clone Example.garbage 72 9 Example.state = Some (codec, w')
    ∧ codec ≠ NULL ∧ codec ≠ 72 ∧ codecs Example.state !! codec = None
    ∧ codecs w' !! codec = Some (Codec.Build 32 40 48 NULL NULL 9)
    ∧ codecs w' !! 72 = Some (Codec.Build 32 40 48 NULL NULL 8)
    ∧ (∀ upd w1 w2, store_codec codec upd w1 = Some (tt, w2) →
                    codecs w2 !! 72 = codecs w1 !! 72)
    ∧ (∀ upd w1 w2, store_codec 72 upd w1 = Some (tt, w2) →
                    codecs w2 !! codec = codecs w1 !! codec)
    ∧ (∀ op r w1 w2, op ∈ lifecycle_functions Example.vtables →
                     op codec w1 = Some (r, w2) →
                     codecs w2 !! 72 = codecs w1 !! 72)
    ∧ (∀ op r w1 w2, op ∈ lifecycle_functions Example.vtables →
                     op 72 w1 = Some (r, w2) →
                     codecs w2 !! codec = codecs w1 !! codec).
Proof.
  apply (clone_independent Example.vtables Example.garbage 72 9
           (Codec.Build 32 40 48 NULL NULL 8) Example.state);
    [reflexivity | apply example_local_lifecycle].
Defined.

(** The first call on the 50-byte packet. *)
Lemma dissect_default_cursor_sum_witness :
  ∃ rv buffer' size' w',
    mpf_codec_dissect 64 Example.vtables 64 1000 50 128 Example.state
      = Some ((rv, (buffer', size')), w')
    ∧ buffer' + size' = 1000 + 50
    ∧ buffer' - 1000 = 50 - size'.
Proof.
  apply (dissect_default_cursor_sum 64 Example.vtables 64 1000 50 128
           (Frame.Build 2000 20) Example.state);
    [reflexivity | reflexivity | simpl; lia | lia | intros _ _; reflexivity].
Defined.

(** Dissecting into, and filling, the 20-byte frame. *)
Lemma default_writes_frame_extent_witness :
  (∃ rv cursor w',
     mpf_codec_dissect 64 Example.vtables 64 1000 50 128 Example.state
       = Some ((rv, cursor), w')
     ∧ frames w' = frames Example.state
     ∧ (∀ a, ¬ (2000 ≤ a < 2000 + 20) →
             bytes w' !! a = bytes Example.state !! a)
     ∧ (20 ≠ 0 → 20 ≤ 50 →
        rv = TRUE
        ∧ ∀ i, 0 ≤ i < 20 →
               is_Some (bytes Example.state !! (1000 + i))
               ∧ bytes w' !! (2000 + i) = bytes Example.state !! (1000 + i))
     ∧ (20 = 0 ∨ 50 < 20 → rv = FALSE ∧ bytes w' = bytes Example.state))
  ∧ (∃ w',
       mpf_codec_fill Example.vtables 64 128 Example.state = Some (TRUE, w')
       ∧ frames w' = frames Example.state
       ∧ (∀ a, ¬ (2000 ≤ a < 2000 + 20) →
               bytes w' !! a = bytes Example.state !! a)
       ∧ (∀ i, 0 ≤ i < 20 → bytes w' !! (2000 + i) = Some x00)).
Proof.
  destruct (default_writes_frame_extent 64 Example.vtables 64 1000 50 128
              (Frame.Build 2000 20) Example.state)
    as [Hdissect Hfill]; [reflexivity|].
  split.
  - apply Hdissect; [reflexivity | intros _ _; reflexivity].
  - apply Hfill; reflexivity.
Defined.

(** ** Further properties of the header's functions *)

Section MORE.

Variable apr_size_bits : Z.
Variable vtables : gmap Z mpf_codec_vtable_t.
Variable indeterminate : mpf_codec_t.

(** *** Construction *)

(** X1. A clone dispatches to the methods of its source: after
    [mpf_codec_clone], every entry of the virtual table seen through the
    clone is the entry seen through the source, which is what it was
    before the call. *)
Theorem clone_same_methods {X} (sel : mpf_codec_vtable_t → option X)
    src_codec pool src w :
  codecs w !! src_codec = Some src →
  ∃ codec w',
    mpf_codec_clone indeterminate src_codec pool w = Some (codec, w')
    ∧ method vtables sel codec w' = method vtables sel src_codec w
    ∧ method vtables sel src_codec w' = method vtables sel src_codec w.
Proof.
  intros Hsrc. destruct (fresh_codec w) as [_ Hfr].
  assert (fresh ({[NULL]} ∪ dom (codecs w)) ≠ src_codec) as Hne by congruence.
  eexists _, _. split; [by apply mpf_codec_clone_run|].
  unfold method. simpl.
  rewrite lookup_insert_eq, lookup_insert_ne, Hsrc by done. done.
Qed.

(** X2. Cloning a codec just created gives what creating it in the other pool
    would have given: two distinct non-null objects with the same
    [vtable], [attribs] and [static_descriptor], null encoder and decoder
    objects, and each its own pool; codecs that existed before are still
    there. *)
Theorem clone_of_created vtable attribs descriptor pool pool' w :
  ∃ c1 c2 w',
    (c1 <- mpf_codec_create indeterminate vtable attribs descriptor pool ;;
     c2 <- mpf_codec_clone indeterminate c1 pool' ;;
     ret (c1, c2)) w = Some ((c1, c2), w')
    ∧ c1 ≠ NULL ∧ c2 ≠ NULL ∧ c1 ≠ c2
    ∧ codecs w' !! c1
        = Some (Codec.Build vtable attribs descriptor NULL NULL pool)
    ∧ codecs w' !! c2
        = Some (Codec.Build vtable attribs descriptor NULL NULL pool')
    ∧ (∀ other c, codecs w !! other = Some c → codecs w' !! other = Some c).
Proof.
  pose proof (mpf_codec_create_run indeterminate vtable attribs descriptor
                pool w) as Hcreate. simpl in Hcreate.
  destruct (fresh_codec w) as [Hnull1 Hfr1].
  set (c1 := fresh ({[NULL]} ∪ dom (codecs w))) in *.
  set (w1 := set_codecs (<[c1 := Codec.Build vtable attribs descriptor
                                              NULL NULL pool]> (codecs w)) w)
    in *.
  assert (codecs w1 !! c1
          = Some (Codec.Build vtable attribs descriptor NULL NULL pool))
    as Hc1 by apply lookup_insert_eq.
  pose proof (mpf_codec_clone_run indeterminate c1 pool' _ w1 Hc1) as Hclone.
  simpl in Hclone. destruct (fresh_codec w1) as [Hnull2 Hfr2].
  set (c2 := fresh ({[NULL]} ∪ dom (codecs w1))) in *.
  assert (c2 ≠ c1) as Hne by congruence.
  eexists c1, c2, _. split.
  { rewrite (bind_run _ _ _ _ _ Hcreate), (bind_run _ _ _ _ _ Hclone). done. }
  repeat split; try done; simpl.
  - by rewrite lookup_insert_ne.
  - apply lookup_insert_eq.
  - intros other c Hother.
    assert (other ≠ c1) by congruence.
    assert (codecs w1 !! other = Some c) as Hother1.
    { unfold w1. simpl. by rewrite lookup_insert_ne. }
    assert (other ≠ c2) by congruence.
    by rewrite lookup_insert_ne.
Qed.

(** X3. Cloning is blind to the encoder and decoder objects of its source: a
    clone of a clone has the members a direct clone into the last pool
    has, whatever the source had opened, and source, clone and second clone
    are three distinct objects. *)
Theorem clone_of_clone src_codec pool pool' src w :
  codecs w !! src_codec = Some src →
  ∃ c1 c2 w',
    (c1 <- mpf_codec_clone indeterminate src_codec pool ;;
     c2 <- mpf_codec_clone indeterminate c1 pool' ;;
     ret (c1, c2)) w = Some ((c1, c2), w')
    ∧ c1 ≠ src_codec ∧ c2 ≠ src_codec ∧ c1 ≠ c2
    ∧ codecs w' !! src_codec = Some src
    ∧ codecs w' !! c2
        = Some (Codec.Build (Codec.vtable src) (Codec.attribs src)
                            (Codec.static_descriptor src) NULL NULL pool').
Proof.
  intros Hsrc.
  pose proof (mpf_codec_clone_run indeterminate src_codec pool src w Hsrc)
    as Hclone1. simpl in Hclone1.
  destruct (fresh_codec w) as [_ Hfr1].
  set (c1 := fresh ({[NULL]} ∪ dom (codecs w))) in *.
  assert (c1 ≠ src_codec) as Hne1 by congruence.
  set (w1 := set_codecs (<[c1 := Codec.Build (Codec.vtable src)
                                   (Codec.attribs src)
                                   (Codec.static_descriptor src)
                                   NULL NULL pool]> (codecs w)) w) in *.
  assert (codecs w1 !! c1
          = Some (Codec.Build (Codec.vtable src) (Codec.attribs src)
                              (Codec.static_descriptor src) NULL NULL pool))
    as Hc1 by apply lookup_insert_eq.
  assert (codecs w1 !! src_codec = Some src) as Hsrc1.
  { unfold w1. simpl. by rewrite lookup_insert_ne. }
  pose proof (mpf_codec_clone_run indeterminate c1 pool' _ w1 Hc1) as Hclone2.
  simpl in Hclone2. destruct (fresh_codec w1) as [_ Hfr2].
  set (c2 := fresh ({[NULL]} ∪ dom (codecs w1))) in *.
  assert (c2 ≠ c1) as Hne2 by congruence.
  assert (c2 ≠ src_codec) as Hne3 by congruence.
  eexists c1, c2, _. split.
  { rewrite (bind_run _ _ _ _ _ Hclone1), (bind_run _ _ _ _ _ Hclone2). done. }
  repeat split; try done; simpl.
  - by rewrite lookup_insert_ne.
  - apply lookup_insert_eq.
Qed.

(** *** Pointers that lead nowhere *)

(** When [codec->vtable] cannot be dereferenced no function that
    dispatches through it has a defined run. *)
Lemma dispatch_undefined codec w :
  codec_vtable vtables codec w = None →
  (∀ op, op ∈ lifecycle_functions vtables → op codec w = None)
  ∧ (∀ frame_in frame_out,
       mpf_codec_encode vtables codec frame_in frame_out w = None)
  ∧ (∀ frame_in frame_out,
       mpf_codec_decode vtables codec frame_in frame_out w = None)
  ∧ (∀ buffer size frame,
       mpf_codec_dissect apr_size_bits vtables codec buffer size frame w
       = None)
  ∧ (∀ frame_out, mpf_codec_fill vtables codec frame_out w = None).
Proof.
  intros Hvt. repeat split.
  - intros op. unfold lifecycle_functions.
    rewrite !elem_of_cons, elem_of_nil.
    intros [->|[->|[->|[->|[]]]]];
      unfold mpf_codec_encoder_open, mpf_codec_encoder_close,
        mpf_codec_decoder_open, mpf_codec_decoder_close, bind;
      by rewrite Hvt.
  - intros. unfold mpf_codec_encode, bind. by rewrite Hvt.
  - intros. unfold mpf_codec_decode, bind. by rewrite Hvt.
  - intros. unfold mpf_codec_dissect, bind. by rewrite Hvt.
  - intros. unfold mpf_codec_fill, bind. by rewrite Hvt.
Qed.

(** X4. [mpf_codec_create] accepts a [vtable] pointer that names no virtual
    table (a null one, say) and returns a codec all the same; on that
    codec the four lifecycle functions, encode, decode, dissect and fill
    are all undefined, since each of them dereferences [codec->vtable]
    without a check. *)
Theorem create_unchecked_vtable vtable attribs descriptor pool w :
  vtables !! vtable = None →
  ∃ codec w',
    mpf_codec_create indeterminate vtable attribs descriptor pool w
      = Some (codec, w')
    ∧ (∀ op, op ∈ lifecycle_functions vtables → op codec w' = None)
    ∧ (∀ frame_in frame_out,
         mpf_codec_encode vtables codec frame_in frame_out w' = None)
    ∧ (∀ frame_in frame_out,
         mpf_codec_decode vtables codec frame_in frame_out w' = None)
    ∧ (∀ buffer size frame,
         mpf_codec_dissect apr_size_bits vtables codec buffer size frame w'
         = None)
    ∧ (∀ frame_out, mpf_codec_fill vtables codec frame_out w' = None).
Proof.
  intros Hvt. eexists _, _. split; [apply mpf_codec_create_run|].
  apply dispatch_undefined.
  unfold codec_vtable, load_codec, load_vtable, bind. simpl.
  rewrite lookup_insert_eq. simpl. by rewrite Hvt.
Qed.

(** X5. No dispatching function checks its [codec] argument: on a pointer
    that names no live codec (a null one, say) the four lifecycle
    functions, encode, decode, dissect and fill are all undefined. *)
Theorem dangling_codec_undefined codec w :
  codecs w !! codec = None →
  (∀ op, op ∈ lifecycle_functions vtables → op codec w = None)
  ∧ (∀ frame_in frame_out,
       mpf_codec_encode vtables codec frame_in frame_out w = None)
  ∧ (∀ frame_in frame_out,
       mpf_codec_decode vtables codec frame_in frame_out w = None)
  ∧ (∀ buffer size frame,
       mpf_codec_dissect apr_size_bits vtables codec buffer size frame w
       = None)
  ∧ (∀ frame_out, mpf_codec_fill vtables codec frame_out w = None).
Proof.
  intros Hc. apply dispatch_undefined.
  unfold codec_vtable, load_codec, bind. by rewrite Hc.
Qed.

(** *** Stateless families *)

Lemma lifecycle_absent op codec c vt w :
  codecs w !! codec = Some c → vtables !! Codec.vtable c = Some vt →
  lifecycle_methods vt = [None; None; None; None] →
  op ∈ lifecycle_functions vtables →
  op codec w = Some (TRUE, w).
Proof.
  intros Hc Hvt [= Hoe Hce Hod Hcd]. unfold lifecycle_functions.
  pose proof (codec_vtable_live vtables _ _ _ _ Hc Hvt) as Hrun.
  rewrite !elem_of_cons, elem_of_nil.
  intros [->|[->|[->|[->|[]]]]];
    unfold mpf_codec_encoder_open, mpf_codec_encoder_close,
      mpf_codec_decoder_open, mpf_codec_decoder_close;
    rewrite (bind_run _ _ _ _ _ Hrun); by rewrite ?Hoe, ?Hce, ?Hod, ?Hcd.
Qed.

(** X6. On a codec whose family declares none of the four lifecycle methods,
    any sequence of lifecycle calls, in any order and with any repetition
    (a double open, a close before an open), returns [TRUE] at every call
    and ends in the state it started from. *)
Theorem stateless_lifecycle_sequence ops codec c vt w :
  codecs w !! codec = Some c → vtables !! Codec.vtable c = Some vt →
  lifecycle_methods vt = [None; None; None; None] →
  ops ⊆ lifecycle_functions vtables →
  call_in_sequence ops codec w = Some (replicate (length ops) TRUE, w).
Proof.
  intros Hc Hvt Hnone. induction ops as [|op ops IH]; intros Hops; [done|].
  simpl call_in_sequence.
  rewrite (bind_run _ _ _ _ _
             (lifecycle_absent op _ _ _ _ Hc Hvt Hnone
                (Hops op (list_elem_of_here _ _)))).
  rewrite (bind_run _ _ _ _ _ (IH (λ x Hx, Hops x (list_elem_of_further _ _ _ Hx)))).
  done.
Qed.

(** *** Silence *)

(** Storing the same bytes again changes nothing. *)
Lemma store_bytes_again m p bs m' :
  store_bytes m p bs = Some m' → store_bytes m' p bs = Some m'.
Proof.
  intros Hst.
  destruct (store_bytes_defined m' p bs bs) as [m'' Hst'];
    [by eapply store_bytes_load|].
  rewrite Hst'. f_equal. apply map_eq. intros a.
  rewrite (store_bytes_lookup _ _ _ _ a Hst'), (store_bytes_lookup _ _ _ _ a Hst).
  by case_decide.
Qed.

(** X7. The default fill is idempotent: filling a frame that was just filled
    returns [TRUE] again and leaves the state exactly as the first fill
    left it. *)
Theorem fill_default_idempotent codec frame_out f w :
  method vtables Vtable.fill codec w = Some None →
  frames w !! frame_out = Some f →
  memset_defined w (Frame.buffer f) (Frame.size f) = true →
  ∃ w', mpf_codec_fill vtables codec frame_out w = Some (TRUE, w')
      ∧ mpf_codec_fill vtables codec frame_out w' = Some (TRUE, w').
Proof.
  intros Hm Hf Hal.
  destruct (fill_default vtables _ _ _ _ Hm Hf Hal) as (m' & Hst & Hrun).
  exists (set_bytes m' w). split; [done|].
  assert (memset_defined (set_bytes m' w) (Frame.buffer f) (Frame.size f)
          = true) as Hal'.
  { unfold memset_defined in *. apply andb_prop in Hal as [Hv Hal].
    apply andb_true_iff. split.
    - by eapply store_bytes_valid_pointer.
    - apply allocated_true. eapply store_bytes_allocated; [done|].
      by apply allocated_true. }
  destruct (fill_default vtables codec frame_out f (set_bytes m' w))
    as (m'' & Hst' & ->); [done|done|done|].
  simpl in Hst'. rewrite (store_bytes_again _ _ _ _ Hst) in Hst'.
  by injection Hst' as <-.
Qed.

(** X8. The default fill of a frame of size zero is [memset] with a
    length of zero: when [frame->buffer] is a valid pointer it returns
    [TRUE] and changes nothing; when it is not (a null or a dangling
    pointer) the call is undefined, for the code hands the pointer to
    [memset] without looking at the size. *)
Theorem fill_default_empty codec frame_out f w :
  method vtables Vtable.fill codec w = Some None →
  frames w !! frame_out = Some f →
  Frame.size f = 0 →
  mpf_codec_fill vtables codec frame_out w
  = if valid_pointer (bytes w) (Frame.buffer f) then Some (TRUE, w) else None.
Proof.
  intros (vt & Hvt & Hsel)%codec_vtable_run Hf Hz. unfold mpf_codec_fill.
  rewrite (bind_run _ _ _ _ _ Hvt). rewrite Hsel.
  rewrite (bind_run _ _ _ _ _ (load_frame_run _ _ _ Hf)).
  unfold bind, memset, ret. rewrite Hz.
  destruct (valid_pointer (bytes w) (Frame.buffer f)); [|done].
  simpl. by destruct w.
Qed.

(** *** Dissection and the packet *)

(** A frame buffer that lies outside the packet can take the next frame. *)
Lemma packet_memcpy_defined buffer size f data w :
  0 < Frame.size f → Frame.size f ≤ size →
  load_bytes (bytes w) buffer (Z.to_nat size) = Some data →
  allocated w (Frame.buffer f) (Frame.size f) = true →
  Frame.buffer f + Frame.size f ≤ buffer ∨ buffer + size ≤ Frame.buffer f →
  memcpy_defined w (Frame.buffer f) buffer (Frame.size f) = true
  ∧ load_bytes (bytes w) buffer (Z.to_nat (Frame.size f))
      = Some (take (Z.to_nat (Frame.size f)) data).
Proof.
  intros HF Hle Hdata Hal Hdisj.
  assert (load_bytes (bytes w) buffer (Z.to_nat (Frame.size f))
          = Some (take (Z.to_nat (Frame.size f)) data)) as Hld.
  { rewrite <- (Z.add_0_r buffer).
    rewrite (load_bytes_sub _ _ _ _ 0 _ Hdata) by lia. done. }
  split; [|done].
  unfold memcpy_defined, disjoint_ranges. rewrite Hal.
  rewrite !andb_true_iff. repeat split.
  - apply orb_true_iff. rewrite !Z.leb_le. lia.
  - apply allocated_true. eauto.
Qed.

(** X9. The default dissector reads the packet and never writes it: with the
    frame buffer outside the packet, a call, whether it copies a frame or
    fails, leaves every byte of the packet and every codec object as they
    were. *)
Theorem dissect_default_preserves_packet codec buffer size frame f data w :
  method vtables Vtable.dissect codec w = Some None →
  frames w !! frame = Some f →
  0 < Frame.size f →
  load_bytes (bytes w) buffer (Z.to_nat size) = Some data →
  allocated w (Frame.buffer f) (Frame.size f) = true →
  Frame.buffer f + Frame.size f ≤ buffer ∨ buffer + size ≤ Frame.buffer f →
  ∃ r w',
    mpf_codec_dissect apr_size_bits vtables codec buffer size frame w
      = Some (r, w')
    ∧ load_bytes (bytes w') buffer (Z.to_nat size) = Some data
    ∧ codecs w' = codecs w.
Proof.
  intros Hm Hf HF Hdata Hal Hdisj.
  rewrite (dissect_default _ _ _ _ _ _ _ Hm).
  destruct (decide (size < Frame.size f)) as [Hlt|Hge].
  - rewrite (default_dissect_fails _ _ _ _ _ _ Hf (or_intror Hlt)). eauto.
  - destruct (packet_memcpy_defined buffer size f data w) as [Hcp _];
      try done; [lia|].
    destruct (default_dissect_copies apr_size_bits buffer size frame f w Hf)
      as (bs & m' & Hld & Hst & ->); [lia|lia|done|].
    eexists _, _. split; [done|]. split; [|done]. simpl.
    rewrite <- Hdata. apply load_bytes_ext. intros a Ha.
    apply (store_bytes_outside _ _ _ _ _ Hst).
    rewrite (load_bytes_length _ _ _ _ Hld). lia.
Qed.

(** X10. The default dissector cannot work in place: when a whole frame is
    left and the frame buffer overlaps the bytes to copy, the call is the
    [memcpy] of two overlapping regions, which is undefined. *)
Theorem dissect_default_overlap_undefined codec buffer size frame f w :
  method vtables Vtable.dissect codec w = Some None →
  frames w !! frame = Some f →
  0 < Frame.size f → Frame.size f ≤ size →
  disjoint_ranges (Frame.buffer f) buffer (Frame.size f) = false →
  mpf_codec_dissect apr_size_bits vtables codec buffer size frame w = None.
Proof.
  intros Hm Hf HF Hle Hov. rewrite (dissect_default _ _ _ _ _ _ _ Hm).
  unfold default_dissect.
  rewrite (bind_run _ _ _ _ _ (load_frame_run _ _ _ Hf)).
  destruct (Z.leb_spec (Frame.size f) size), (Z.eqb_spec (Frame.size f) 0);
    simpl; try lia.
  rewrite (bind_run _ _ _ _ _ (load_frame_run _ _ _ Hf)).
  unfold bind, memcpy. by rewrite Hov.
Qed.

(** The frames a run of calls has dissected, put end to end, are a prefix
    of the packet. *)
Lemma dissected_prefix n codec buffer size frame f data w :
  method vtables Vtable.dissect codec w = Some None →
  frames w !! frame = Some f →
  0 < Frame.size f → 0 ≤ size → size < 2 ^ apr_size_bits →
  load_bytes (bytes w) buffer (Z.to_nat size) = Some data →
  allocated w (Frame.buffer f) (Frame.size f) = true →
  Frame.buffer f + Frame.size f ≤ buffer ∨ buffer + size ≤ Frame.buffer f →
  ∃ trace w',
    dissect_repeatedly apr_size_bits vtables n codec buffer size frame w
      = Some (trace, w')
    ∧ length (dissected trace) = (n `min` Z.to_nat (size / Frame.size f))%nat
    ∧ concat (snd <$> dissected trace)
        = take (length (dissected trace) * Z.to_nat (Frame.size f)) data.
Proof.
  intros Hm Hf HF. revert buffer size data w Hm Hf.
  induction n as [|n IH]; intros buffer size data w Hm Hf H0 Hsz Hdata Hal Hdisj.
  { exists [], w. by rewrite take_0. }
  simpl dissect_repeatedly.
  pose proof (dissect_default apr_size_bits vtables _ buffer size frame _ Hm)
    as Hdd.
  destruct (decide (size < Frame.size f)) as [Hlt|Hge].
  - rewrite (default_dissect_fails _ _ _ _ _ _ Hf (or_intror Hlt)) in Hdd.
    rewrite (bind_run _ _ _ _ _ Hdd).
    destruct (proj1 (allocated_true _ _ _) Hal) as [old Hold].
    rewrite (bind_run _ _ _ _ _ (frame_payload_run _ _ _ _ Hf Hold)).
    destruct (IH buffer size data w Hm Hf H0 Hsz Hdata Hal Hdisj)
      as (trace & w' & Hrun & Hlen & Hcat).
    simpl fst; simpl snd. rewrite (bind_run _ _ _ _ _ Hrun).
    eexists (_ :: trace), w'. split; [done|].
    unfold dissected in *. rewrite filter_cons_False by done.
    rewrite Z.div_small in * by lia. split; [lia|done].
  - destruct (packet_memcpy_defined buffer size f data w) as [Hcp Htake];
      try done; [lia|].
    destruct (default_dissect_copies apr_size_bits buffer size frame f w Hf)
      as (bs & m' & Hld & Hst & Hrun); [lia|lia|done|].
    assert (bs = take (Z.to_nat (Frame.size f)) data) as -> by congruence.
    rewrite Hrun, apr_size_sub_exact in Hdd by lia.
    rewrite (bind_run _ _ _ _ _ Hdd).
    pose proof (load_bytes_length _ _ _ _ Htake) as Hlen_take.
    assert (frame_payload frame (set_bytes m' w)
            = Some (take (Z.to_nat (Frame.size f)) data, set_bytes m' w))
      as Hpay.
    { apply (frame_payload_run _ f); [done|]. simpl.
      rewrite <- Hlen_take at 1. by eapply store_bytes_load. }
    rewrite (bind_run _ _ _ _ _ Hpay). simpl fst; simpl snd.
    destruct (dissect_step_state buffer size f data m' w)
      as [Hdata' Hal']; try done; [lia|].
    destruct (IH (buffer + Frame.size f) (size - Frame.size f)
                 (drop (Z.to_nat (Frame.size f)) data) (set_bytes m' w))
      as (trace & w' & Hrun' & Hlen & Hcat); try done; try lia.
    rewrite (bind_run _ _ _ _ _ Hrun').
    eexists (_ :: trace), w'. split; [done|].
    destruct (div_mod_step size (Frame.size f)) as [Hq _]; [lia|lia|].
    assert (0 < size / Frame.size f) as Hpos by (apply Z.div_str_pos; lia).
    unfold dissected in *. rewrite filter_cons_True by done.
    rewrite Hq in Hlen. split; [cbn [length]; lia|].
    rewrite fmap_cons, concat_cons. simpl snd. rewrite Hcat.
    rewrite take_take_drop. done.
Qed.

(** X11. Dissection loses nothing and invents nothing: the payloads of the
    calls that returned [TRUE], put end to end in call order, are the
    first [k * F] bytes of the packet, where [k], the number of such calls,
    is the smaller of the number of calls made and [S / F].  When the
    packet is a whole number of frames and enough calls are made, they
    are the packet itself. *)
Theorem dissect_default_reassembly n codec buffer size frame f data w :
  method vtables Vtable.dissect codec w = Some None →
  frames w !! frame = Some f →
  0 < Frame.size f → 0 ≤ size → size < 2 ^ apr_size_bits →
  load_bytes (bytes w) buffer (Z.to_nat size) = Some data →
  allocated w (Frame.buffer f) (Frame.size f) = true →
  Frame.buffer f + Frame.size f ≤ buffer ∨ buffer + size ≤ Frame.buffer f →
  ∃ trace w',
    dissect_repeatedly apr_size_bits vtables n codec buffer size frame w
      = Some (trace, w')
    ∧ length (dissected trace) = (n `min` Z.to_nat (size / Frame.size f))%nat
    ∧ concat (snd <$> dissected trace)
        = take (length (dissected trace) * Z.to_nat (Frame.size f)) data
    ∧ (size mod Frame.size f = 0 → size / Frame.size f ≤ Z.of_nat n →
       concat (snd <$> dissected trace) = data).
Proof.
  intros Hm Hf HF H0 Hsz Hdata Hal Hdisj.
  destruct (dissected_prefix n codec buffer size frame f data w)
    as (trace & w' & Hrun & Hlen & Hcat); try done.
  exists trace, w'. repeat split; try done.
  intros Hmod Hn. rewrite Hcat, Hlen. apply take_ge.
  rewrite (load_bytes_length _ _ _ _ Hdata).
  pose proof (Z.div_mod size (Frame.size f)) as Hdm.
  assert (0 ≤ size / Frame.size f) by (apply Z.div_pos; lia).
  replace (n `min` Z.to_nat (size / Frame.size f))%nat
    with (Z.to_nat (size / Frame.size f)) by lia.
  rewrite <- Z2Nat.inj_mul by lia. apply Z2Nat.inj_le; lia.
Qed.

(** *** The two default writers *)



End MORE.

(** ** The further properties at the concrete state *)

(** The clone of the stateful codec sees the family's [open_encoder]. *)
Lemma clone_same_methods_witness :
  ∃ codec w',
    mpf_codec_clone Example.garbage 72 9 Example.state = Some (codec, w')
    ∧ method Example.vtables Vtable.open_encoder codec w'
        = method Example.vtables Vtable.open_encoder 72 Example.state
    ∧ method Example.vtables Vtable.open_encoder 72 w'
        = method Example.vtables Vtable.open_encoder 72 Example.state.
Proof.
  apply (clone_same_methods Example.vtables Example.garbage
           Vtable.open_encoder 72 9 (Codec.Build 32 40 48 NULL NULL 8)
           Example.state); reflexivity.
Defined.

(** Cloning the stateful codec twice, into pools 9 and 10. *)
Lemma clone_of_clone_witness :
  ∃ c1 c2 w',
    (c1 <- mpf_codec_clone Example.garbage 72 9 ;;
     c2 <- mpf_codec_clone Example.garbage c1 10 ;;
     ret (c1, c2)) Example.state = Some ((c1, c2), w')
    ∧ c1 ≠ 72 ∧ c2 ≠ 72 ∧ c1 ≠ c2
    ∧ codecs w' !! 72 = Some (Codec.Build 32 40 48 NULL NULL 8)
    ∧ codecs w' !! c2 = Some (Codec.Build 32 40 48 NULL NULL 10).
Proof.
  apply (clone_of_clone Example.garbage 72 9 10
           (Codec.Build 32 40 48 NULL NULL 8) Example.state); reflexivity.
Defined.

(** A codec created over a null [vtable]. *)
Lemma create_unchecked_vtable_witness :
  ∃ codec w',
    mpf_codec_create Example.garbage NULL 24 NULL 8 Example.state
      = Some (codec, w')
    ∧ (∀ op, op ∈ lifecycle_functions Example.vtables → op codec w' = None)
    ∧ (∀ frame_in frame_out,
         mpf_codec_encode Example.vtables codec frame_in frame_out w' = None)
    ∧ (∀ frame_in frame_out,
         mpf_codec_decode Example.vtables codec frame_in frame_out w' = None)
    ∧ (∀ buffer size frame,
         mpf_codec_dissect 64 Example.vtables codec buffer size frame w'
         = None)
    ∧ (∀ frame_out, mpf_codec_fill Example.vtables codec frame_out w' = None).
Proof.
  apply (create_unchecked_vtable 64 Example.vtables Example.garbage
           NULL 24 NULL 8 Example.state); reflexivity.
Defined.

(** The null codec pointer. *)
Lemma dangling_codec_undefined_witness :
  (∀ op, op ∈ lifecycle_functions Example.vtables →
         op NULL Example.state = None)
  ∧ (∀ frame_in frame_out,
       mpf_codec_encode Example.vtables NULL frame_in frame_out Example.state
       = None)
  ∧ (∀ frame_in frame_out,
       mpf_codec_decode Example.vtables NULL frame_in frame_out Example.state
       = None)
  ∧ (∀ buffer size frame,
       mpf_codec_dissect 64 Example.vtables NULL buffer size frame
         Example.state = None)
  ∧ (∀ frame_out,
       mpf_codec_fill Example.vtables NULL frame_out Example.state = None).
Proof.
  apply (dangling_codec_undefined 64 Example.vtables NULL Example.state);
    reflexivity.
Defined.

(** Open twice, close the decoder that was never opened, close the encoder
    twice, on the PCM codec. *)
Lemma stateless_lifecycle_sequence_witness :
  call_in_sequence
    [ mpf_codec_encoder_open Example.vtables;
      mpf_codec_encoder_open Example.vtables;
      mpf_codec_decoder_close Example.vtables;
      mpf_codec_encoder_close Example.vtables;
      mpf_codec_encoder_close Example.vtables ] 64 Example.state
  = Some ([TRUE; TRUE; TRUE; TRUE; TRUE], Example.state).
Proof.
  apply (stateless_lifecycle_sequence Example.vtables
           [ mpf_codec_encoder_open Example.vtables;
             mpf_codec_encoder_open Example.vtables;
             mpf_codec_decoder_close Example.vtables;
             mpf_codec_encoder_close Example.vtables;
             mpf_codec_encoder_close Example.vtables ] 64
           (Codec.Build 16 24 NULL NULL NULL 8) Example.pcm_vtable
           Example.state); [reflexivity | reflexivity | reflexivity |].
  unfold lifecycle_functions. intros op.
  rewrite !elem_of_cons, !elem_of_nil. tauto.
Defined.

(** Filling the 20-byte frame twice. *)
Lemma fill_default_idempotent_witness :
  ∃ w', mpf_codec_fill Example.vtables 64 128 Example.state = Some (TRUE, w')
      ∧ mpf_codec_fill Example.vtables 64 128 w' = Some (TRUE, w').
Proof.
  apply (fill_default_idempotent Example.vtables 64 128
           (Frame.Build 2000 20) Example.state); reflexivity.
Defined.

(** Filling the frame of size zero whose buffer is null. *)
Lemma fill_default_empty_witness :
  mpf_codec_fill Example.vtables 64 144 Example.state_with_bad_frames = None.
Proof.
  apply (fill_default_empty Example.vtables 64 144 (Frame.Build NULL 0)
           Example.state_with_bad_frames); reflexivity.
Defined.

(** The first call on the 50-byte packet leaves the packet as it is. *)
Lemma dissect_default_preserves_packet_witness :
  ∃ r w',
    mpf_codec_dissect 64 Example.vtables 64 1000 50 128 Example.state
      = Some (r, w')
    ∧ load_bytes (bytes w') 1000 50 = Some Example.packet
    ∧ codecs w' = codecs Example.state.
Proof.
  apply (dissect_default_preserves_packet 64 Example.vtables 64 1000 50 128
           (Frame.Build 2000 20) Example.packet Example.state);
    [reflexivity | reflexivity | reflexivity | reflexivity | reflexivity
    | simpl; lia].
Defined.

(** Dissecting bytes 10..29 of the frame buffer into the frame buffer. *)
Lemma dissect_default_overlap_undefined_witness :
  mpf_codec_dissect 64 Example.vtables 64 2010 20 128 Example.state = None.
Proof.
  apply (dissect_default_overlap_undefined 64 Example.vtables 64 2010 20 128
           (Frame.Build 2000 20) Example.state);
    [reflexivity | reflexivity | reflexivity | simpl; lia | reflexivity].
Defined.

(** Three calls on the first 40 bytes of the packet, two whole frames. *)
Lemma dissect_default_reassembly_witness :
  ∃ trace w',
    dissect_repeatedly 64 Example.vtables 3 64 1000 40 128 Example.state
      = Some (trace, w')
    ∧ length (dissected trace) = 2%nat
    ∧ concat (snd <$> dissected trace)
        = take (length (dissected trace) * 20) (take 40 Example.packet)
    ∧ (40 mod 20 = 0 → 40 / 20 ≤ 3 →
       concat (snd <$> dissected trace) = take 40 Example.packet).
Proof.
  apply (dissect_default_reassembly 64 Example.vtables 3 64 1000 40 128
           (Frame.Build 2000 20) (take 40 Example.packet) Example.state);
    [reflexivity | reflexivity | reflexivity | lia | lia
    | reflexivity | reflexivity | simpl; lia].
Defined.

